(** * Strategies of Axelrod's second tournament

    A shallow embedding of [axelrod/strategies/axelrod_second.py]
    (Champion, Eatherley, Tester, Gladstein, MoreGrofman) and the
    properties of their decision rules.

    Conventions of the embedding.
    - Python integers are [Z]; [len] is the [Z]-valued length.
    - A strategy is a computation in a state-and-exception monad over
      the [World] it can reach: its own object, the opponent object and
      the random source behind [random.random()].
    - A Python float is the rational number it denotes; [float('inf')]
      is the constructor [Inf] of [number].
    - Arithmetic comes in two layers.  In the binary64 layer
      ([fl], [true_div_binary64], [num_div_binary64] and the strategies
      named [..._binary64]) a true division of two integers is what
      CPython computes: the quotient rounded to the nearest double, ties
      to even, with [OverflowError] when the result is beyond the largest
      double; [0.4] is the double nearest to 2/5.  In the exact layer
      ([true_div], [num_div] and the strategies without suffix) the
      quotient is not rounded and never overflows, and [0.4] is [2 # 5];
      it is used for the statements that do not depend on rounding at
      the sizes a match can reach.
    - [IndexError], [ZeroDivisionError] and [OverflowError] are the
      exceptions the code can raise. *)

From Stdlib Require Import ZArith QArith Qminmax Qround Qabs List Bool Lia Lqa.
Import ListNotations.

Set Implicit Arguments.
Local Open Scope Z_scope.

(* ================================================================== *)
(** ** Moves *)

Inductive Action : Type := C | D.

(** [Action.flip] *)
Definition flip (a : Action) : Action :=
  match a with C => D | D => C end.

Definition Action_eqb (a b : Action) : bool :=
  match a, b with
  | C, C | D, D => true
  | _, _ => false
  end.

Fixpoint history_eqb (l1 l2 : list Action) : bool :=
  match l1, l2 with
  | [], [] => true
  | a :: t1, b :: t2 => Action_eqb a b && history_eqb t1 t2
  | _, _ => false
  end.

(* ================================================================== *)
(** ** Python numbers and sequences *)

(** A Python number as the strategies meet it: a finite value, or
    [float('inf')]. *)
Inductive number : Type :=
| Num (q : Q)
| Inf.

(** [x / k] for a positive literal [k], exact layer: the quotient is
    not rounded and does not overflow (see [num_div_binary64]). *)
Definition num_div (x : number) (k : positive) : number :=
  match x with
  | Num q => Num (q / inject_Z (Zpos k))
  | Inf => Inf
  end.

(** [x * k] for a positive literal [k]. *)
Definition num_mul (x : number) (k : positive) : number :=
  match x with
  | Num q => Num (q * inject_Z (Zpos k))
  | Inf => Inf
  end.

Definition Qlt_bool (x y : Q) : bool := negb (Qle_bool y x).

(** [n < x] for an integer [n]: every integer is below [float('inf')]. *)
Definition int_lt (n : Z) (x : number) : bool :=
  match x with
  | Num q => Qlt_bool (inject_Z n) q
  | Inf => true
  end.

(** The builtin [max(a, b)] on two numbers. *)
Definition py_max (a b : Q) : Q := if Qlt_bool a b then b else a.

Definition len {A : Type} (l : list A) : Z := Z.of_nat (length l).

(** [l[i]]: a negative index counts from the end; [None] is the
    position at which Python raises [IndexError]. *)
Definition py_index {A : Type} (l : list A) (i : Z) : option A :=
  let j := if i <? 0 then i + len l else i in
  if (j <? 0) || (len l <=? j) then None else nth_error l (Z.to_nat j).

(** [l[-1:]] *)
Definition py_last_slice {A : Type} (l : list A) : list A :=
  skipn (length l - 1) l.

(** [range(a, b)] *)
Definition py_range (a b : Z) : list Z :=
  map (fun i => a + Z.of_nat i) (seq 0 (Z.to_nat (b - a))).

(** [int(b)] for a boolean. *)
Definition int_of_bool (b : bool) : Z := if b then 1 else 0.

(* ================================================================== *)
(** ** Players and the world of one [strategy] call *)

(** What [Player] gives every strategy object: the history and the two
    counters kept by the match engine, and [match_attributes['length']]. *)
Record Player : Type := mkPlayer {
  history : list Action;
  cooperations : Z;
  defections : Z;
  match_length : number
}.

(** Objects with a [history]: a plain [Player] or a subclass instance
    with private attributes. *)
Class HasPlayer (S : Type) : Type := {
  player : S -> Player;
  with_player : Player -> S -> S
}.

#[export] Instance Player_HasPlayer : HasPlayer Player :=
  {| player := fun p => p; with_player := fun p _ => p |}.

(** [Tester]: a player with the flag [is_TFT]. *)
Record Tester : Type := mkTester {
  Tester_player : Player;
  is_TFT : bool
}.

#[export] Instance Tester_HasPlayer : HasPlayer Tester :=
  {| player := Tester_player;
     with_player := fun p t => mkTester p (is_TFT t) |}.

(** [Gladstein]: a player with the flag [patsy]. *)
Record Gladstein : Type := mkGladstein {
  Gladstein_player : Player;
  patsy : bool
}.

#[export] Instance Gladstein_HasPlayer : HasPlayer Gladstein :=
  {| player := Gladstein_player;
     with_player := fun p g => mkGladstein p (patsy g) |}.

(** Everything a call [self.strategy(opponent)] can read or write.
    [random_source] is the sequence of values [random.random()] will
    produce and [random_drawn] the number of values taken so far. *)
Record World (S : Type) : Type := mkWorld {
  self : S;
  opponent : Player;
  random_source : nat -> Q;
  random_drawn : nat
}.

Inductive exn : Type :=
| IndexError
| ZeroDivisionError
| OverflowError
| ReturnedNone.   (* falling off the end of a function: not an Action *)

Inductive Res (A : Type) : Type :=
| Ok (a : A)
| Raise (e : exn).
Arguments Raise {A} e.

Definition M (S A : Type) : Type := World S -> Res A * World S.

Definition ret {S A : Type} (a : A) : M S A := fun w => (Ok a, w).

Definition bind {S A B : Type} (m : M S A) (f : A -> M S B) : M S B :=
  fun w =>
    match m w with
    | (Ok a, w') => f a w'
    | (Raise e, w') => (Raise e, w')
    end.

Definition raise {S A : Type} (e : exn) : M S A := fun w => (Raise e, w).

Definition gets {S A : Type} (f : World S -> A) : M S A :=
  fun w => (Ok (f w), w).

Definition set_self {S : Type} (f : S -> S) : M S unit :=
  fun w => (Ok tt, mkWorld (f (self w)) (opponent w)
                           (random_source w) (random_drawn w)).

Declare Scope py_scope.
Delimit Scope py_scope with py.
Notation "x <- m ;; k" := (bind m (fun x => k))
  (at level 100, m at next level, right associativity) : py_scope.
Notation "m ;;; k" := (bind m (fun _ => k))
  (at level 100, right associativity) : py_scope.
Local Open Scope py_scope.

(** [random.random()] *)
Definition random {S : Type} : M S Q :=
  fun w => (Ok (random_source w (random_drawn w)),
            mkWorld (self w) (opponent w)
                    (random_source w) (Datatypes.S (random_drawn w))).

(** [l[i]] as a statement. *)
Definition getitem {S A : Type} (l : list A) (i : Z) : M S A :=
  match py_index l i with
  | Some a => ret a
  | None => raise IndexError
  end.

(** [a / b] on two integers, exact layer: [ZeroDivisionError] for a
    zero divisor; the quotient is not rounded and does not overflow (see
    [true_div_binary64]). *)
Definition true_div {S : Type} (a b : Z) : M S Q :=
  if b =? 0 then raise ZeroDivisionError
  else ret (inject_Z a / inject_Z b)%Q.

(** [for x in l: acc = body(x, acc)] *)
Fixpoint for_each {S A B : Type} (l : list B) (body : B -> A -> M S A)
  (acc : A) : M S A :=
  match l with
  | [] => ret acc
  | x :: t => acc' <- body x acc ;; for_each t body acc'
  end.

(** Modelled from the spec: [axelrod.random_.random_choice], which is
    imported and not defined in this module.  It returns Cooperate with
    probability [p]: one draw [r], Cooperate when [r < p]. *)
Definition random_choice {S : Type} (p : Q) : M S Action :=
  r <- random ;;
  if Qlt_bool r p then ret C else ret D.

(* ================================================================== *)
(** ** The strategies *)

(** [Champion.strategy] *)
Definition Champion_strategy : M Player Action :=
  own <- gets (fun w => history (self w)) ;;
  let current_round := len own in
  expected_length <- gets (fun w => match_length (self w)) ;;
  (* Cooperate for the first 1/20-th of the game *)
  if current_round =? 0 then ret C else
  if int_lt current_round (num_div expected_length 20) then ret C else
  (* Mirror partner for the next phase *)
  opp <- gets (fun w => opponent w) ;;
  if int_lt current_round (num_div (num_mul expected_length 5) 40)
  then getitem (history opp) (-1) else
  (* Now cooperate unless all of the necessary conditions are true *)
  defection_prop <- true_div (defections opp) (len (history opp)) ;;
  last <- getitem (history opp) (-1) ;;
  if Action_eqb last D then
    r <- random ;;
    if Qle_bool (py_max (2 # 5) r) defection_prop then ret D else ret C
  else ret C.

(** [Eatherley.strategy], a static method: [self] is not read. *)
Definition Eatherley_strategy : M Player Action :=
  opp <- gets (fun w => opponent w) ;;
  (* Cooperate on the first move *)
  if len (history opp) =? 0 then ret C else
  (* Reciprocate cooperation *)
  last <- getitem (history opp) (-1) ;;
  if Action_eqb last C then ret C else
  (* Respond to defections with probability equal to opponent's total
     proportion of defections *)
  defection_prop <- true_div (defections opp) (len (history opp)) ;;
  random_choice (1 - defection_prop)%Q.

(** [Tester.strategy] *)
Definition Tester_strategy : M Tester Action :=
  opp <- gets (fun w => opponent w) ;;
  (* Defect on the first move *)
  match history opp with
  | [] => ret D
  | _ :: _ =>
    (* Am I TFT? *)
    tft <- gets (fun w => is_TFT (self w)) ;;
    if tft then
      ret (if history_eqb (py_last_slice (history opp)) [D] then D else C)
    else
      (* Did opponent defect? *)
      last <- getitem (history opp) (-1) ;;
      if Action_eqb last D then
        set_self (fun t => mkTester (Tester_player t) true) ;;;
        ret C
      else
        own <- gets (fun w => history (Tester_player (self w))) ;;
        if existsb (Z.eqb (len own)) [1; 2] then ret C else
        (* Alternate C and D *)
        prev <- getitem own (-1) ;;
        ret (flip prev)
  end.

(** [Gladstein.strategy] *)
Definition Gladstein_strategy : M Gladstein Action :=
  own <- gets (fun w => Gladstein_player (self w)) ;;
  (* Defect on the first move *)
  match history own with
  | [] => ret D
  | _ :: _ =>
    (* Is the opponent a patsy? *)
    p <- gets (fun w => patsy (self w)) ;;
    opp <- gets (fun w => opponent w) ;;
    if p then
      (* If the opponent defects, apologize and play TFT. *)
      last <- getitem (history opp) (-1) ;;
      if Action_eqb last D then
        set_self (fun g => mkGladstein (Gladstein_player g) false) ;;;
        ret C
      else
        (* Cooperate as long as the cooperation ratio is below 0.5 *)
        cooperation_ratio <-
          true_div (cooperations own) (len (history own)) ;;
        if Qlt_bool (1 # 2) cooperation_ratio then ret D else ret C
    else
      (* Play TFT *)
      getitem (history opp) (-1)
  end.

(** The loop of [MoreGrofman.k86r] that accumulates [iprev7]. *)
Definition k86r_iprev7 {S : Type} (moven : Z) (ioppnt : list Action)
  : M S Z :=
  let j := moven - 7 in
  let k := moven - 1 in
  for_each (py_range (j - 1) (k + 1))
    (fun i iprev7 =>
       let python_index := i - 1 in
       x <- getitem ioppnt python_index ;;
       ret (iprev7 + int_of_bool (Action_eqb x D)))
    0.

(** [MoreGrofman.k86r] *)
Definition k86r (jpick : Action) (moven : Z) (ioppnt : list Action)
  : M Player Action :=
  if negb (moven >? 2) then ret C
  else if negb (moven >? 7) then ret jpick
  else
    own <- gets (fun w => history (self w)) ;;
    myold <- getitem own (-1) ;;
    iprev7 <- k86r_iprev7 moven ioppnt ;;
    if Action_eqb myold C && (iprev7 <=? 2) then ret C else
    if Action_eqb myold C && (iprev7 >? 2) then ret D else
    if Action_eqb myold D && (iprev7 <=? 1) then ret C else
    if Action_eqb myold D && (iprev7 >? 1) then ret D else
    raise ReturnedNone.

(** [MoreGrofman.strategy] *)
Definition MoreGrofman_strategy : M Player Action :=
  opp <- gets (fun w => opponent w) ;;
  jpick <- (if len (history opp) >=? 1
            then getitem (history opp) (-1) else ret C) ;;
  own <- gets (fun w => history (self w)) ;;
  let moven := len own + 1 in   (* index from 1 for fortran logic *)
  let ioppnt := history opp in
  k86r jpick moven ioppnt.

(* ================================================================== *)
(** ** Binary64 arithmetic *)

(** Rounding of a rational to the nearest integer, ties to the even one. *)
Definition round_half_even (a : Q) : Z :=
  let f := Qfloor a in
  match Qcompare (a - inject_Z f) (1 # 2) with
  | Lt => f
  | Gt => f + 1
  | Eq => if Z.even f then f else f + 1
  end.

(** Every double is an integer multiple of [2 ^ -1074]. *)
Definition binary64_scale : Z := 2 ^ 1074.

(** The exponent of the spacing of the doubles around [X / 2 ^ 1074]
    ([X >= 0]), counted from [-1074]: 53 significant bits, and never
    below the spacing of the subnormal numbers. *)
Definition binary64_exponent (X : Q) : Z :=
  Z.max (Z.log2 (Qfloor X) - 52) 0.

(** The multiple of [2 ^ -1074] nearest to [X / 2 ^ 1074] among the
    doubles, as an integer. *)
Definition grid (X : Q) : Z :=
  let e := binary64_exponent X in
  round_half_even (X / inject_Z (2 ^ e)) * 2 ^ e.

Definition fl_nonneg (x : Q) : Q :=
  (inject_Z (grid (x * inject_Z binary64_scale))
   / inject_Z binary64_scale)%Q.

(** [fl x]: the double nearest to [x], ties to even (for [x] within the
    range of the doubles; see [overflows]). *)
Definition fl (x : Q) : Q :=
  Qred (if Qlt_bool x 0 then - fl_nonneg (- x) else fl_nonneg x).

(** The rounding of [x] is beyond the largest double, [2^1024 - 2^971],
    exactly when [|x|] reaches the midpoint between it and [2^1024]. *)
Definition binary64_overflow_bound : Q := inject_Z (2 ^ 1024 - 2 ^ 970).

Definition overflows (x : Q) : bool :=
  Qle_bool binary64_overflow_bound (Qabs x).

(** [a / b] on two integers as CPython computes it: [ZeroDivisionError]
    for a zero divisor, [OverflowError] ("integer division result too
    large for a float") when the rounded quotient is beyond the largest
    double, and otherwise the double nearest to the quotient. *)
Definition true_div_binary64 {S : Type} (a b : Z) : M S Q :=
  if b =? 0 then raise ZeroDivisionError
  else if overflows (inject_Z a / inject_Z b) then raise OverflowError
  else ret (fl (inject_Z a / inject_Z b)).

(** [x / k] for a match length [x] and a positive literal [k].  A finite
    length is a Python int, the number of turns, so this is the true
    division of two integers; [float('inf') / k] is [float('inf')]. *)
Definition num_div_binary64 {S : Type} (x : number) (k : positive)
  : M S number :=
  match x with
  | Num q =>
    if overflows (q / inject_Z (Zpos k)) then raise OverflowError
    else ret (Num (fl (q / inject_Z (Zpos k))))
  | Inf => ret Inf
  end.

(** [a - b] on two floats. *)
Definition sub_binary64 (a b : Q) : Q := fl (a - b).

(** The literal [0.4]. *)
Definition literal_0_4 : Q := fl (2 # 5).

(** [Champion.strategy], binary64 arithmetic. *)
Definition Champion_strategy_binary64 : M Player Action :=
  own <- gets (fun w => history (self w)) ;;
  let current_round := len own in
  expected_length <- gets (fun w => match_length (self w)) ;;
  (* Cooperate for the first 1/20-th of the game *)
  if current_round =? 0 then ret C else
  first_phase <- num_div_binary64 expected_length 20 ;;
  if int_lt current_round first_phase then ret C else
  (* Mirror partner for the next phase *)
  opp <- gets (fun w => opponent w) ;;
  next_phase <- num_div_binary64 (num_mul expected_length 5) 40 ;;
  if int_lt current_round next_phase
  then getitem (history opp) (-1) else
  (* Now cooperate unless all of the necessary conditions are true *)
  defection_prop <-
    true_div_binary64 (defections opp) (len (history opp)) ;;
  last <- getitem (history opp) (-1) ;;
  if Action_eqb last D then
    r <- random ;;
    if Qle_bool (py_max literal_0_4 r) defection_prop then ret D else ret C
  else ret C.

(** [Eatherley.strategy], binary64 arithmetic. *)
Definition Eatherley_strategy_binary64 : M Player Action :=
  opp <- gets (fun w => opponent w) ;;
  (* Cooperate on the first move *)
  if len (history opp) =? 0 then ret C else
  (* Reciprocate cooperation *)
  last <- getitem (history opp) (-1) ;;
  if Action_eqb last C then ret C else
  (* Respond to defections with probability equal to opponent's total
     proportion of defections *)
  defection_prop <-
    true_div_binary64 (defections opp) (len (history opp)) ;;
  random_choice (sub_binary64 1 defection_prop).

(** [Gladstein.strategy], binary64 arithmetic ([0.5] is a double). *)
Definition Gladstein_strategy_binary64 : M Gladstein Action :=
  own <- gets (fun w => Gladstein_player (self w)) ;;
  (* Defect on the first move *)
  match history own with
  | [] => ret D
  | _ :: _ =>
    (* Is the opponent a patsy? *)
    p <- gets (fun w => patsy (self w)) ;;
    opp <- gets (fun w => opponent w) ;;
    if p then
      (* If the opponent defects, apologize and play TFT. *)
      last <- getitem (history opp) (-1) ;;
      if Action_eqb last D then
        set_self (fun g => mkGladstein (Gladstein_player g) false) ;;;
        ret C
      else
        (* Cooperate as long as the cooperation ratio is below 0.5 *)
        cooperation_ratio <-
          true_div_binary64 (cooperations own) (len (history own)) ;;
        if Qlt_bool (1 # 2) cooperation_ratio then ret D else ret C
    else
      (* Play TFT *)
      getitem (history opp) (-1)
  end.

(** A match length the engine can hand out without the thresholds of
    Champion overflowing: [float('inf')], or an integer of magnitude at
    most [2 ^ 1024]. *)
Definition representable_length (x : number) : Prop :=
  x = Inf \/ exists n : Z, x = Num (inject_Z n) /\ Z.abs n <= 2 ^ 1024.

(* ================================================================== *)
(** ** The match engine, as far as the strategies depend on it *)

(** Modelled from the spec: the match engine, which is not part of this
    module.  After a round resolves it appends the move to the player's
    history and updates the player's counters; a player's history length
    is the number of completed rounds. *)
Definition engine_record (a : Action) (p : Player) : Player :=
  {| history := history p ++ [a];
     cooperations := cooperations p + int_of_bool (Action_eqb a C);
     defections := defections p + int_of_bool (Action_eqb a D);
     match_length := match_length p |}.

(** Modelled from the spec: what the engine does to the two players when
    a round resolves with the moves [a] and [opp_move]. *)
Definition engine_round {S : Type} `{HasPlayer S} (a opp_move : Action)
  (w : World S) : World S :=
  mkWorld (with_player (engine_record a (player (self w))) (self w))
          (engine_record opp_move (opponent w))
          (random_source w) (random_drawn w).

(** Modelled from the spec: one round of a match seen from the strategy
    [strat]: it decides, then the engine records its move and the
    opponent's move [opp_move]. *)
Definition play_round {S : Type} `{HasPlayer S} (strat : M S Action)
  (opp_move : Action) : M S Action :=
  a <- strat ;;
  (fun w => (Ok a, engine_round a opp_move w)).

(** Modelled from the spec: the rounds of a match against an opponent
    that plays [opp_moves]; the result is the list of the strategy's
    moves. *)
Fixpoint play {S : Type} `{HasPlayer S} (strat : M S Action)
  (opp_moves : list Action) : M S (list Action) :=
  match opp_moves with
  | [] => ret []
  | m :: rest =>
    a <- play_round strat m ;;
    l <- play strat rest ;;
    ret (a :: l)
  end.

(** A player at the start of a match. *)
Definition fresh_player (n : number) : Player :=
  {| history := []; cooperations := 0; defections := 0; match_length := n |}.

(** [history.count(a)] *)
Definition count (a : Action) (l : list Action) : Z :=
  len (filter (Action_eqb a) l).

(* ================================================================== *)
(** ** Notions used by the statements *)

(** Modelled from the spec: the value of [match_attributes['length']] in
    a match of unbounded length.  The engine that sets it is not part of
    this module; the spec calls the length infinite, signalled by a
    special value, and [float('inf')] is what this module itself writes
    for an unbounded quantity ([memory_depth]). *)
Definition unbounded_length : number := Inf.

(** The sequence D, C, C, D, C, D, C, ...: Defect at round 0, Cooperate
    at rounds 1 and 2, and from round 3 on the flip of the move before. *)
Fixpoint Tester_vs_cooperator (n : nat) : Action :=
  match n with
  | O => D
  | S m =>
    match m with
    | O => C
    | S O => C
    | S (S _) => flip (Tester_vs_cooperator m)
    end
  end.

(** The world after [k] rounds of Tester against a cooperator. *)
Definition Tester_cooperator_world (k : nat) (w : World Tester) : Prop :=
  history (Tester_player (self w)) = map Tester_vs_cooperator (seq 0 k) /\
  history (opponent w) = repeat C k /\
  is_TFT (self w) = false.

(** The world of the first round after round 0 of a match of unbounded
    length, the opponent having defected in round 0. *)
Definition Champion_unbounded_round1 : World Player :=
  mkWorld (mkPlayer [C] 1 0 unbounded_length)
          (mkPlayer [D] 0 1 unbounded_length) (fun _ => 0%Q) 0.

(** A computation that leaves the opponent object, the [Player] part of
    its own object (history and counters) and the random sequence as they
    were.  The private flag of the own object and the number of values
    drawn are not constrained. *)
Definition keeps_players {S A : Type} `{HasPlayer S} (m : M S A) : Prop :=
  forall w : World S,
    opponent (snd (m w)) = opponent w /\
    player (self (snd (m w))) = player (self w) /\
    random_source (snd (m w)) = random_source w.

(** The same world with another random source, [n] values into it. *)
Definition reseed {S : Type} (w : World S) (src : nat -> Q) (n : nat)
  : World S :=
  mkWorld (self w) (opponent w) src n.

(** A computation that does not consult the random source: on any other
    source it returns the same result and makes the same changes, and it
    leaves the source where it was. *)
Definition ignores_random {S A : Type} (m : M S A) : Prop :=
  forall (w : World S) (src : nat -> Q) (n : nat),
    m (reseed w src n) = (fst (m w), reseed (snd (m w)) src n).

(** The window of the docstring and of the Fortran loop [DO I = J,K]:
    the opponent's moves at the 0-indexed positions [moven - 8] to
    [moven - 2], the seven rounds before move number [moven]. *)
Definition recent_defections (moven : Z) (ioppnt : list Action) : Z :=
  count D (firstn 7 (skipn (Z.to_nat (moven - 8)) ioppnt)).

(** The world of move 9 in which the opponent defected in the first three
    rounds and cooperated in the next five, MoreGrofman having cooperated
    throughout. *)
Definition MoreGrofman_move_9 : World Player :=
  mkWorld (mkPlayer [C; C; C; C; C; C; C; C] 8 0 (Num 200))
          (mkPlayer [D; D; D; C; C; C; C; C] 5 3 (Num 200))
          (fun _ => 0%Q) 0.

(** [Tester.__init__]: a player at the start of a match, [is_TFT = False]. *)
Definition Tester_init (n : number) : Tester :=
  mkTester (fresh_player n) false.

(** [Gladstein.__init__]: a player at the start of a match, [patsy = True]. *)
Definition Gladstein_init (n : number) : Gladstein :=
  mkGladstein (fresh_player n) true.

(** Both histories hold the same number of completed rounds. *)
Definition same_rounds {S : Type} `{HasPlayer S} (w : World S) : Prop :=
  length (history (player (self w))) = length (history (opponent w)).

(** The world after [k] rounds of Gladstein against a cooperator. *)
Definition Gladstein_cooperator_world (k : nat) (w : World Gladstein) : Prop :=
  history (Gladstein_player (self w)) = map Tester_vs_cooperator (seq 0 k) /\
  cooperations (Gladstein_player (self w))
    = count C (map Tester_vs_cooperator (seq 0 k)) /\
  history (opponent w) = repeat C k /\
  patsy (self w) = true.

(** The four tests that end [k86r], as a table. *)
Definition k86r_table (myold : Action) (iprev7 : Z) : Action :=
  match myold with
  | C => if iprev7 <=? 2 then C else D
  | D => if iprev7 <=? 1 then C else D
  end.

(** The defections among the last eight moves of a history. *)
Definition last_eight_defections (l : list Action) : Z :=
  count D (firstn 8 (skipn (length l - 8) l)).

(* ================================================================== *)
(** ** Basic facts about the Python primitives *)

Unset Implicit Arguments.

Lemma Action_eqb_eq (a b : Action) : Action_eqb a b = true <-> a = b.
Proof. destruct a, b; simpl; split; congruence. Qed.

Lemma Action_eqb_refl (a : Action) : Action_eqb a a = true.
Proof. now destruct a. Qed.

Lemma Qlt_bool_iff (x y : Q) : Qlt_bool x y = true <-> (x < y)%Q.
Proof.
  unfold Qlt_bool. rewrite negb_true_iff.
  split; intro H.
  - apply Qnot_le_lt. intro Hle. apply Qle_bool_iff in Hle. congruence.
  - destruct (Qle_bool y x) eqn:E; [|reflexivity].
    apply Qle_bool_iff in E. exfalso. exact (Qlt_not_le _ _ H E).
Qed.

Lemma Qlt_bool_false_iff (x y : Q) : Qlt_bool x y = false <-> (y <= x)%Q.
Proof.
  unfold Qlt_bool. rewrite negb_false_iff. apply Qle_bool_iff.
Qed.

Lemma len_nonneg {A : Type} (l : list A) : 0 <= len l.
Proof. unfold len. lia. Qed.

Lemma len_zero_iff {A : Type} (l : list A) : len l = 0 <-> l = [].
Proof.
  unfold len. destruct l; simpl; split; intro H; try reflexivity;
    try discriminate; lia.
Qed.

Lemma len_app {A : Type} (l1 l2 : list A) : len (l1 ++ l2) = len l1 + len l2.
Proof. unfold len. rewrite length_app. lia. Qed.

(** [l[-1]] is the last element, and exists exactly when [l] is not empty. *)
Lemma py_index_last {A : Type} (l : list A) (a : A) :
  py_index (l ++ [a]) (-1) = Some a.
Proof.
  unfold py_index. cbv zeta. change (-1 <? 0) with true. cbv iota.
  rewrite len_app. change (len [a]) with 1.
  pose proof (len_nonneg l) as Hl.
  replace (-1 + (len l + 1)) with (len l) by lia.
  destruct (len l <? 0) eqn:E1; [apply Z.ltb_lt in E1; lia|].
  destruct (len l + 1 <=? len l) eqn:E2; [apply Z.leb_le in E2; lia|].
  simpl. unfold len. rewrite Nat2Z.id.
  rewrite nth_error_app2 by lia. now rewrite Nat.sub_diag.
Qed.

Lemma py_index_nil {A : Type} (i : Z) : py_index (@nil A) i = None.
Proof.
  unfold py_index. cbv zeta. change (len (@nil A)) with 0.
  destruct (i <? 0) eqn:E.
  - rewrite Z.add_0_r, E. reflexivity.
  - destruct (0 <=? i) eqn:E2; [now rewrite orb_true_r|].
    apply Z.ltb_ge in E. apply Z.leb_gt in E2. lia.
Qed.

Lemma nonempty_snoc {A : Type} (l : list A) :
  l <> [] -> exists l' a, l = l' ++ [a].
Proof.
  intro H. destruct (exists_last H) as [l' [a E]]. now exists l', a.
Qed.

Lemma py_index_last_some {A : Type} (l : list A) :
  l <> [] -> exists a, py_index l (-1) = Some a.
Proof.
  intro H. destruct (nonempty_snoc _ H) as [l' [a ->]].
  exists a. apply py_index_last.
Qed.

Lemma py_last_slice_snoc {A : Type} (l : list A) (a : A) :
  py_last_slice (l ++ [a]) = [a].
Proof.
  unfold py_last_slice. rewrite length_app. simpl.
  replace (length l + 1 - 1)%nat with (length l) by lia.
  rewrite skipn_app, skipn_all, Nat.sub_diag. reflexivity.
Qed.

(** In [Tester], the slice test [history[-1:] == [D]] and the item test
    [history[-1] == D] agree. *)
Lemma last_slice_is_D (l : list Action) (a : Action) :
  py_index l (-1) = Some a ->
  history_eqb (py_last_slice l) [D] = Action_eqb a D.
Proof.
  intro H. destruct l as [|x t].
  - rewrite py_index_nil in H. discriminate.
  - assert (Hne : x :: t <> []) by discriminate.
    destruct (nonempty_snoc _ Hne) as [l' [b E]]. rewrite E in *.
    rewrite py_index_last in H. injection H as ->.
    rewrite py_last_slice_snoc. simpl. now rewrite andb_true_r.
Qed.

(** Unfolding of the monadic primitives, for running a strategy on a
    world inside a proof. *)
Ltac run :=
  repeat (progress (
    cbv beta iota zeta delta
      [bind ret gets raise set_self getitem true_div random random_choice];
    cbn [fst snd self opponent random_source random_drawn
         history cooperations defections match_length
         Tester_player is_TFT Gladstein_player patsy])).

Lemma len_cons_neq_0 {A : Type} (a : A) (l : list A) :
  (len (a :: l) =? 0) = false.
Proof. apply Z.eqb_neq. unfold len. simpl length. lia. Qed.

(** One more round of [play], when the strategy returns normally. *)
Lemma play_cons_ok {S : Type} `{HasPlayer S} (strat : M S Action)
  (m : Action) (rest : list Action) (w : World S) (a : Action) (w' : World S) :
  strat w = (Ok a, w') ->
  play strat (m :: rest) w =
    match play strat rest (engine_round a m w') with
    | (Ok l, w2) => (Ok (a :: l), w2)
    | (Raise e, w2) => (Raise e, w2)
    end.
Proof.
  intro E. cbn [play]. unfold play_round, bind, ret. rewrite E. reflexivity.
Qed.

(* ================================================================== *)
(** ** Gladstein *)



(* ================================================================== *)
(** ** Tester *)

(** Once [is_TFT] is set, Tester answers with the opponent's previous
    move and touches nothing. *)
Lemma Tester_TFT_step (w : World Tester) (h : list Action) (a : Action) :
  is_TFT (self w) = true ->
  history (opponent w) = h ++ [a] ->
  Tester_strategy w = (Ok a, w).
Proof.
  intros Hf Hh. unfold Tester_strategy. run. rewrite Hh.
  destruct (h ++ [a]) as [|x t] eqn:E; [now destruct h|].
  run. rewrite Hf. rewrite <- E, py_last_slice_snoc.
  now destruct a.
Qed.

(** No path of [Tester.strategy] clears [is_TFT]. *)
Lemma Tester_flag_stays_set (w : World Tester) :
  is_TFT (self w) = true ->
  is_TFT (self (snd (Tester_strategy w))) = true.
Proof.
  intro Hf. unfold Tester_strategy. run.
  destruct (history (opponent w)) as [|x t]; run; [exact Hf|].
  rewrite Hf. exact Hf.
Qed.

(** The apology: not yet [is_TFT], opponent just defected. *)
Lemma Tester_apology_step (w : World Tester) :
  is_TFT (self w) = false ->
  py_index (history (opponent w)) (-1) = Some D ->
  Tester_strategy w =
    (Ok C, mkWorld (mkTester (Tester_player (self w)) true) (opponent w)
                   (random_source w) (random_drawn w)).
Proof.
  intros Hf Hlast. unfold Tester_strategy. run.
  destruct (history (opponent w)) as [|x t] eqn:E.
  - rewrite py_index_nil in Hlast. discriminate.
  - run. rewrite Hf, Hlast. reflexivity.
Qed.

Lemma firstn_length_cons {A : Type} (a : A) (l : list A) :
  l <> [] -> firstn (length l) (a :: l) = a :: removelast l.
Proof.
  revert a. induction l as [|x t IH]; intros a Hne; [congruence|].
  destruct t as [|y t'].
  - reflexivity.
  - change (length (x :: y :: t')) with (S (length (y :: t'))).
    rewrite firstn_cons, IH by discriminate. reflexivity.
Qed.

(** From a world in which [is_TFT] is set and the opponent's previous
    move is [a], every later move of Tester is the opponent's previous
    move, and the flag stays set. *)
Lemma Tester_TFT_play (ms : list Action) :
  forall (w : World Tester) (h : list Action) (a : Action),
    is_TFT (self w) = true ->
    history (opponent w) = h ++ [a] ->
    fst (play Tester_strategy ms w) = Ok (firstn (length ms) (a :: ms)) /\
    is_TFT (self (snd (play Tester_strategy ms w))) = true.
Proof.
  induction ms as [|m rest IH]; intros w h a Hf Hh.
  - simpl. split; [reflexivity|exact Hf].
  - rewrite (play_cons_ok Tester_strategy m rest w a w
               (Tester_TFT_step w h a Hf Hh)).
    assert (Hf1 : is_TFT (self (engine_round a m w)) = true)
      by (simpl; exact Hf).
    assert (Hh1 : history (opponent (engine_round a m w)) = (h ++ [a]) ++ [m])
      by (simpl; now rewrite Hh).
    destruct (IH _ (h ++ [a]) m Hf1 Hh1) as [IH1 IH2].
    destruct (play Tester_strategy rest (engine_round a m w)) as [r w2].
    simpl in IH1, IH2. subst r. simpl.
    split; [reflexivity|exact IH2].
Qed.

(** C3. In the first round in which the opponent's previous move is
    Defect while Tester has not apologized, Tester returns Cooperate and
    sets [is_TFT].  The flag is never cleared afterwards: whatever the
    opponent goes on to play ([m :: rest], one move per round from this
    one on), the flag is set at the end, and Tester's moves in these
    rounds are Cooperate (the apology) followed, round after round, by
    the opponent's previous move. *)
Theorem Tester_apologizes_then_TFT (w : World Tester)
  (m : Action) (rest : list Action) :
  is_TFT (self w) = false ->
  py_index (history (opponent w)) (-1) = Some D ->
  Tester_strategy w =
    (Ok C, mkWorld (mkTester (Tester_player (self w)) true) (opponent w)
                   (random_source w) (random_drawn w)) /\
  fst (play Tester_strategy (m :: rest) w)
    = Ok (C :: removelast (m :: rest)) /\
  is_TFT (self (snd (play Tester_strategy (m :: rest) w))) = true.
Proof.
  intros Hf Hlast. split; [now apply Tester_apology_step|].
  rewrite (play_cons_ok Tester_strategy m rest w C _
             (Tester_apology_step w Hf Hlast)).
  set (w1 := engine_round C m _).
  assert (Hf1 : is_TFT (self w1) = true) by reflexivity.
  assert (Hh1 : history (opponent w1) = history (opponent w) ++ [m])
    by reflexivity.
  destruct (Tester_TFT_play rest w1 (history (opponent w)) m Hf1 Hh1)
    as [P1 P2].
  destruct (play Tester_strategy rest w1) as [r w2].
  simpl in P1, P2. subst r. simpl fst. simpl snd. split; [|exact P2].
  f_equal. f_equal.
  destruct rest as [|y t]; [reflexivity|].
  rewrite firstn_length_cons by discriminate. reflexivity.
Qed.

Lemma Tester_apologizes_then_TFT_witness :
  fst (play Tester_strategy [C; D; D; C]
         (mkWorld (mkTester (mkPlayer [D; C] 1 1 (Num 200)) false)
                  (mkPlayer [C; D] 1 1 (Num 200)) (fun _ => 0%Q) 0))
  = Ok [C; C; D; D].
Proof.
  refine (proj1 (proj2 (@Tester_apologizes_then_TFT
    (mkWorld (mkTester (mkPlayer [D; C] 1 1 (Num 200)) false)
             (mkPlayer [C; D] 1 1 (Num 200)) (fun _ => 0%Q) 0)
    C [D; D; C] _ _))).
  - reflexivity.
  - reflexivity.
Defined.

Lemma repeat_snoc {A : Type} (a : A) (k : nat) :
  repeat a (S k) = repeat a k ++ [a].
Proof. simpl. apply repeat_cons. Qed.

Lemma Tester_cooperator_step (k : nat) (w : World Tester) :
  Tester_cooperator_world k w ->
  Tester_strategy w = (Ok (Tester_vs_cooperator k), w).
Proof.
  intros (Hown & Hopp & Hf). unfold Tester_strategy. run. rewrite Hopp.
  destruct k as [|k]; [reflexivity|].
  cbn [repeat]. run. rewrite Hf.
  change (C :: repeat C k) with (repeat C (S k)).
  rewrite repeat_snoc, py_index_last. cbn [Action_eqb]. run.
  rewrite Hown. unfold len. rewrite length_map, length_seq.
  destruct k as [|[|k]]; try reflexivity.
  assert (E : existsb (Z.eqb (Z.of_nat (S (S (S k))))) [1; 2] = false).
  { cbn [existsb]. rewrite !orb_false_iff. repeat split;
      apply Z.eqb_neq; lia. }
  rewrite E. run.
  rewrite seq_S, map_app. cbn [map Nat.add]. rewrite py_index_last.
  reflexivity.
Qed.

Lemma Tester_cooperator_next (k : nat) (w : World Tester) :
  Tester_cooperator_world k w ->
  Tester_cooperator_world (S k)
    (engine_round (Tester_vs_cooperator k) C w).
Proof.
  intros (Hown & Hopp & Hf). repeat split.
  - change (history (Tester_player (self w)) ++ [Tester_vs_cooperator k]
            = map Tester_vs_cooperator (seq 0 (S k))).
    rewrite Hown, seq_S, map_app. reflexivity.
  - change (history (opponent w) ++ [C] = repeat C (S k)).
    rewrite Hopp. symmetry. apply repeat_snoc.
  - exact Hf.
Qed.

Lemma Tester_cooperator_play (n : nat) :
  forall (k : nat) (w : World Tester),
    Tester_cooperator_world k w ->
    fst (play Tester_strategy (repeat C n) w)
      = Ok (map Tester_vs_cooperator (seq k n)).
Proof.
  induction n as [|n IH]; intros k w Hw; [reflexivity|].
  cbn [repeat].
  rewrite (play_cons_ok Tester_strategy C (repeat C n) w _ _
             (Tester_cooperator_step k w Hw)).
  specialize (IH (S k) _ (Tester_cooperator_next k w Hw)).
  destruct (play Tester_strategy (repeat C n) _) as [r w2].
  simpl in IH. subst r. reflexivity.
Qed.

(** C7. Against an opponent who always cooperates, from the start of a
    match, Tester plays Defect at round 0, Cooperate at rounds 1 and 2
    and from round 3 on the flip of its own previous move:
    D, C, C, D, C, D, C, ... *)
Theorem Tester_against_cooperator (n : nat) (l1 l2 : number)
  (src : nat -> Q) (k : nat) :
  fst (play Tester_strategy (repeat C n)
         (mkWorld (mkTester (fresh_player l1) false) (fresh_player l2) src k))
    = Ok (map Tester_vs_cooperator (seq 0 n)) /\
  Tester_vs_cooperator 0 = D /\
  Tester_vs_cooperator 1 = C /\
  Tester_vs_cooperator 2 = C /\
  (forall i, (3 <= i)%nat ->
     Tester_vs_cooperator i = flip (Tester_vs_cooperator (i - 1))) /\
  map Tester_vs_cooperator (seq 0 7) = [D; C; C; D; C; D; C].
Proof.
  split; [|repeat split].
  - apply Tester_cooperator_play. repeat split.
  - intros i Hi. destruct i as [|[|[|i]]]; try lia.
    replace (S (S (S i)) - 1)%nat with (S (S i)) by lia. reflexivity.
Qed.

Lemma Tester_against_cooperator_witness :
  fst (play Tester_strategy (repeat C 5)
         (mkWorld (mkTester (fresh_player (Num 200)) false)
                  (fresh_player (Num 200)) (fun _ => 0%Q) 0))
    = Ok [D; C; C; D; C].
Proof.
  exact (proj1 (Tester_against_cooperator 5 (Num 200) (Num 200)
                  (fun _ => 0%Q) 0)).
Defined.

(* ================================================================== *)
(** ** Champion *)

Lemma inject_Z_ge_1 (n : Z) : 1 <= n -> (1 <= inject_Z n)%Q.
Proof. intro H. rewrite (Zle_Qle 1 n) in H. exact H. Qed.


(** With a length that is finite and not positive (the engine's [-1]
    for a player outside a match, say) no threshold is ever reached. *)
Lemma Champion_thresholds_nonpositive_length (cr : Z) (q : Q) :
  1 <= cr -> (q <= 0)%Q ->
  int_lt cr (num_div (Num q) 20) = false /\
  int_lt cr (num_div (num_mul (Num q) 5) 40) = false.
Proof.
  intros Hcr Hq. pose proof (inject_Z_ge_1 cr Hcr) as H1.
  simpl. rewrite !Qlt_bool_false_iff.
  change (inject_Z 40) with (40 # 1)%Q.
  change (inject_Z 5) with (5 # 1)%Q.
  change (inject_Z 20) with (20 # 1)%Q.
  unfold Qdiv.
  change (/ (40 # 1))%Q with (1 # 40)%Q.
  change (/ (20 # 1))%Q with (1 # 20)%Q.
  split; lra.
Qed.

Lemma py_max_Qmax (a b : Q) : (py_max a b == Qmax a b)%Q.
Proof.
  unfold py_max. destruct (Qlt_bool a b) eqn:E.
  - apply Qlt_bool_iff in E. symmetry. apply Q.max_r. now apply Qlt_le_weak.
  - apply Qlt_bool_false_iff in E. symmetry. now apply Q.max_l.
Qed.

(** C1, as stated, fails.  At round 1 of a match of unbounded length both
    threshold comparisons evaluate to true, and Champion returns
    Cooperate without a draw, although the opponent's previous move is
    Defect, its defection rate is 1 and the draw would be 0, for which
    the final phase answers Defect (as it does at this very input when
    the length is [-1]). *)
Lemma Champion_unbounded_counterexample :
  match_length (self Champion_unbounded_round1) = unbounded_length /\
  len (history (self Champion_unbounded_round1)) = 1 /\
  int_lt 1 (num_div unbounded_length 20) = true /\
  int_lt 1 (num_div (num_mul unbounded_length 5) 40) = true /\
  Champion_strategy Champion_unbounded_round1
    = (Ok C, Champion_unbounded_round1) /\
  fst (Champion_strategy
         (mkWorld (mkPlayer [C] 1 0 (Num (-1))) (mkPlayer [D] 0 1 (Num (-1)))
                  (fun _ => 0%Q) 0)) = Ok D.
Proof. repeat split. Qed.

(** C1, amended. With an unbounded match length ([float('inf')]), at
    every round the comparison [current_round < expected_length / 20]
    evaluates to true without raising (so does the comparison with
    [expected_length * 5 / 40]): Champion returns Cooperate, draws
    nothing and changes nothing; it never reaches the mirror phase or the
    final phase. *)
Theorem Champion_unbounded_cooperates (w : World Player) :
  match_length (self w) = unbounded_length ->
  int_lt (len (history (self w))) (num_div (match_length (self w)) 20) = true /\
  int_lt (len (history (self w)))
         (num_div (num_mul (match_length (self w)) 5) 40) = true /\
  Champion_strategy w = (Ok C, w).
Proof.
  intro H. rewrite H. repeat split.
  unfold Champion_strategy. run. rewrite H.
  destruct (len (history (self w)) =? 0); reflexivity.
Qed.

Lemma Champion_unbounded_cooperates_witness :
  Champion_strategy
    (mkWorld (mkPlayer [C; C; C] 3 0 unbounded_length)
             (mkPlayer [D; D; D] 0 3 unbounded_length) (fun _ => 0%Q) 5)
  = (Ok C, mkWorld (mkPlayer [C; C; C] 3 0 unbounded_length)
                   (mkPlayer [D; D; D] 0 3 unbounded_length)
                   (fun _ => 0%Q) 5).
Proof.
  refine (proj2 (proj2 (Champion_unbounded_cooperates
    (mkWorld (mkPlayer [C; C; C] 3 0 unbounded_length)
             (mkPlayer [D; D; D] 0 3 unbounded_length) (fun _ => 0%Q) 5) _))).
  reflexivity.
Defined.

(* ================================================================== *)
(** ** Eatherley *)

Lemma count_all (a : Action) (l : list Action) :
  (forall x, In x l -> x = a) -> count a l = len l.
Proof.
  unfold count. intro H. f_equal.
  induction l as [|x t IH]; [reflexivity|].
  cbn [filter]. rewrite (H x (or_introl eq_refl)), Action_eqb_refl.
  f_equal. apply IH. intros y Hy. apply H. now right.
Qed.

Lemma Qdiv_same (n : Z) : n <> 0 -> (inject_Z n / inject_Z n == 1)%Q.
Proof.
  intro H. unfold Qdiv. apply Qmult_inv_r.
  intro E. apply H. unfold Qeq in E. simpl in E. lia.
Qed.

(* ================================================================== *)
(** ** No division by zero *)

Lemma len_eq_nonempty {A B : Type} (l1 : list A) (l2 : list B) :
  length l1 = length l2 -> l1 <> [] -> l2 <> [].
Proof. destruct l1, l2; simpl; congruence. Qed.

(** The guards of Eatherley and Gladstein test the very list whose length
    is the divisor: they never divide by zero, whatever the histories. *)
Lemma Eatherley_never_divides_by_zero (w : World Player) :
  fst (Eatherley_strategy w) <> Raise ZeroDivisionError.
Proof.
  unfold Eatherley_strategy. run.
  destruct (len (history (opponent w)) =? 0) eqn:E; [discriminate|]. run.
  destruct (py_index _ _) as [a|]; run; [|discriminate].
  destruct (Action_eqb a C); run; [discriminate|].
  destruct (Qlt_bool _ _); discriminate.
Qed.

Lemma Gladstein_never_divides_by_zero (w : World Gladstein) :
  fst (Gladstein_strategy w) <> Raise ZeroDivisionError.
Proof.
  unfold Gladstein_strategy. run.
  destruct (history (Gladstein_player (self w))) as [|x t] eqn:Eh;
    [discriminate|]. run.
  destruct (patsy (self w)); run;
    destruct (py_index _ _) as [a|]; run; try discriminate.
  destruct (Action_eqb a D); run; [discriminate|].
  rewrite len_cons_neq_0. run.
  destruct (Qlt_bool _ _); discriminate.
Qed.

(** Without the engine's precondition the guard of Champion is not
    enough: it tests its own history and divides by the length of the
    opponent's. *)
Lemma Champion_unequal_histories_divide_by_zero :
  fst (Champion_strategy
         (mkWorld (mkPlayer [C] 1 0 (Num (-1))) (mkPlayer [] 0 0 (Num (-1)))
                  (fun _ => 0%Q) 0)) = Raise ZeroDivisionError.
Proof. reflexivity. Qed.

(* ================================================================== *)
(** ** What a call leaves untouched *)

Section KeepsPlayers.
Context {S : Type} `{HasPlayer S}.

Lemma keeps_ret {A : Type} (a : A) : keeps_players (ret (S := S) a).
Proof. intro w. now repeat split. Qed.

Lemma keeps_raise {A : Type} (e : exn) :
  keeps_players (raise (S := S) (A := A) e).
Proof. intro w. now repeat split. Qed.

Lemma keeps_gets {A : Type} (f : World S -> A) : keeps_players (gets f).
Proof. intro w. now repeat split. Qed.

Lemma keeps_random : keeps_players (random (S := S)).
Proof. intro w. now repeat split. Qed.

Lemma keeps_getitem {A : Type} (l : list A) (i : Z) :
  keeps_players (getitem (S := S) l i).
Proof.
  unfold getitem. destruct (py_index l i); [apply keeps_ret|apply keeps_raise].
Qed.

Lemma keeps_true_div (a b : Z) : keeps_players (true_div (S := S) a b).
Proof.
  unfold true_div. destruct (b =? 0); [apply keeps_raise|apply keeps_ret].
Qed.

Lemma keeps_bind {A B : Type} (m : M S A) (f : A -> M S B) :
  keeps_players m -> (forall a, keeps_players (f a)) ->
  keeps_players (bind m f).
Proof.
  intros Hm Hf w. unfold bind. specialize (Hm w).
  destruct (m w) as [[a|e] w1]; cbn [snd] in *.
  - destruct (Hf a w1) as (F1 & F2 & F3). destruct Hm as (E1 & E2 & E3).
    repeat split; congruence.
  - exact Hm.
Qed.

Lemma keeps_for_each {A B : Type} (l : list B) (body : B -> A -> M S A) :
  (forall x acc, keeps_players (body x acc)) ->
  forall acc, keeps_players (for_each l body acc).
Proof.
  intro Hb. induction l as [|x t IH]; intro acc; cbn [for_each].
  - apply keeps_ret.
  - apply keeps_bind; [apply Hb|exact IH].
Qed.

Lemma keeps_random_choice (p : Q) : keeps_players (random_choice (S := S) p).
Proof.
  unfold random_choice. apply keeps_bind; [apply keeps_random|].
  intro r. destruct (Qlt_bool r p); apply keeps_ret.
Qed.

End KeepsPlayers.

Lemma keeps_set_is_TFT (b : bool) :
  keeps_players (set_self (fun t => mkTester (Tester_player t) b)).
Proof. intro w. now repeat split. Qed.

Lemma keeps_set_patsy (b : bool) :
  keeps_players (set_self (fun g => mkGladstein (Gladstein_player g) b)).
Proof. intro w. now repeat split. Qed.

Create HintDb keeps.
#[export] Hint Resolve keeps_ret keeps_raise keeps_gets keeps_random
  keeps_getitem keeps_true_div keeps_random_choice
  keeps_set_is_TFT keeps_set_patsy : keeps.

(** Walk through a strategy: one [bind] or one branch at a time. *)
Ltac keeps_walk :=
  repeat first
    [ progress cbv beta zeta
    | solve [auto with keeps]
    | apply keeps_bind; [|intro]
    | apply keeps_for_each; intros
    | match goal with
      | |- keeps_players (if ?b then _ else _) => destruct b
      | |- keeps_players (match ?l with [] => _ | _ :: _ => _ end) =>
          destruct l
      end ].

Lemma Champion_keeps : keeps_players Champion_strategy.
Proof. unfold Champion_strategy. keeps_walk. Qed.

Lemma Eatherley_keeps : keeps_players Eatherley_strategy.
Proof. unfold Eatherley_strategy. keeps_walk. Qed.

Lemma Tester_keeps : keeps_players Tester_strategy.
Proof. unfold Tester_strategy. keeps_walk. Qed.

Lemma Gladstein_keeps : keeps_players Gladstein_strategy.
Proof. unfold Gladstein_strategy. keeps_walk. Qed.

Lemma k86r_keeps (jpick : Action) (moven : Z) (ioppnt : list Action) :
  keeps_players (k86r jpick moven ioppnt).
Proof. unfold k86r, k86r_iprev7. keeps_walk. Qed.

Lemma MoreGrofman_keeps : keeps_players MoreGrofman_strategy.
Proof.
  unfold MoreGrofman_strategy. keeps_walk. apply k86r_keeps.
Qed.

(** C9. For each of the five strategies and every input state, a call of
    [strategy] leaves the opponent object (its history and its
    cooperation and defection counters) unchanged, and its own history
    and counters as well: of the two players' state only the strategy's
    private flag may change. *)
Theorem strategies_leave_opponent_unchanged :
  (forall w : World Player,
     opponent (snd (Champion_strategy w)) = opponent w /\
     self (snd (Champion_strategy w)) = self w) /\
  (forall w : World Player,
     opponent (snd (Eatherley_strategy w)) = opponent w /\
     self (snd (Eatherley_strategy w)) = self w) /\
  (forall w : World Tester,
     opponent (snd (Tester_strategy w)) = opponent w /\
     Tester_player (self (snd (Tester_strategy w))) = Tester_player (self w)) /\
  (forall w : World Gladstein,
     opponent (snd (Gladstein_strategy w)) = opponent w /\
     Gladstein_player (self (snd (Gladstein_strategy w)))
       = Gladstein_player (self w)) /\
  (forall w : World Player,
     opponent (snd (MoreGrofman_strategy w)) = opponent w /\
     self (snd (MoreGrofman_strategy w)) = self w).
Proof.
  repeat apply conj; intro w; split.
  - exact (proj1 (Champion_keeps w)).
  - exact (proj1 (proj2 (Champion_keeps w))).
  - exact (proj1 (Eatherley_keeps w)).
  - exact (proj1 (proj2 (Eatherley_keeps w))).
  - exact (proj1 (Tester_keeps w)).
  - exact (proj1 (proj2 (Tester_keeps w))).
  - exact (proj1 (Gladstein_keeps w)).
  - exact (proj1 (proj2 (Gladstein_keeps w))).
  - exact (proj1 (MoreGrofman_keeps w)).
  - exact (proj1 (proj2 (MoreGrofman_keeps w))).
Qed.

(* ================================================================== *)
(** ** Determinism *)

Section IgnoresRandom.
Context {S : Type}.

Lemma ignores_ret {A : Type} (a : A) : ignores_random (ret (S := S) a).
Proof. intros w src n. reflexivity. Qed.

Lemma ignores_raise {A : Type} (e : exn) :
  ignores_random (raise (S := S) (A := A) e).
Proof. intros w src n. reflexivity. Qed.

Lemma ignores_gets {A : Type} (f : World S -> A) :
  (forall w src n, f (reseed w src n) = f w) -> ignores_random (gets f).
Proof. intros Hf w src n. unfold gets. now rewrite Hf. Qed.

Lemma ignores_set_self (f : S -> S) : ignores_random (set_self f).
Proof. intros w src n. reflexivity. Qed.

Lemma ignores_getitem {A : Type} (l : list A) (i : Z) :
  ignores_random (getitem (S := S) l i).
Proof.
  unfold getitem.
  destruct (py_index l i); [apply ignores_ret|apply ignores_raise].
Qed.

Lemma ignores_bind {A B : Type} (m : M S A) (f : A -> M S B) :
  ignores_random m -> (forall a, ignores_random (f a)) ->
  ignores_random (bind m f).
Proof.
  intros Hm Hf w src n. unfold bind. rewrite Hm.
  destruct (m w) as [[a|e] w1]; cbn [fst snd]; [apply Hf|reflexivity].
Qed.

Lemma ignores_for_each {A B : Type} (l : list B) (body : B -> A -> M S A) :
  (forall x acc, ignores_random (body x acc)) ->
  forall acc, ignores_random (for_each l body acc).
Proof.
  intro Hb. induction l as [|x t IH]; intro acc; cbn [for_each].
  - apply ignores_ret.
  - apply ignores_bind; [apply Hb|exact IH].
Qed.

End IgnoresRandom.

Create HintDb norandom.
#[export] Hint Resolve ignores_ret ignores_raise ignores_set_self
  ignores_getitem : norandom.

Ltac norandom_walk :=
  repeat first
    [ progress cbv beta zeta
    | solve [auto with norandom]
    | solve [apply ignores_gets; reflexivity]
    | apply ignores_bind; [|intro]
    | apply ignores_for_each; intros
    | match goal with
      | |- ignores_random (if ?b then _ else _) => destruct b
      | |- ignores_random (match ?l with [] => _ | _ :: _ => _ end) =>
          destruct l
      end ].

Lemma Tester_ignores_random : ignores_random Tester_strategy.
Proof. unfold Tester_strategy. norandom_walk. Qed.

Lemma Gladstein_ignores_random : ignores_random Gladstein_strategy.
Proof. unfold Gladstein_strategy. norandom_walk. Qed.

Lemma k86r_ignores_random (jpick : Action) (moven : Z)
  (ioppnt : list Action) : ignores_random (k86r jpick moven ioppnt).
Proof. unfold k86r, k86r_iprev7. norandom_walk. Qed.

Lemma MoreGrofman_ignores_random : ignores_random MoreGrofman_strategy.
Proof.
  unfold MoreGrofman_strategy. norandom_walk. apply k86r_ignores_random.
Qed.

Lemma ignores_random_two_runs {S A : Type} (m : M S A) :
  ignores_random m ->
  forall (w : World S) (src1 src2 : nat -> Q) (n1 n2 : nat),
    fst (m (reseed w src1 n1)) = fst (m (reseed w src2 n2)) /\
    self (snd (m (reseed w src1 n1))) = self (snd (m (reseed w src2 n2))) /\
    random_drawn (snd (m (reseed w src1 n1))) = n1.
Proof.
  intros Hm w src1 src2 n1 n2. rewrite (Hm w src1 n1), (Hm w src2 n2).
  repeat split.
Qed.

(** C10. Tester, Gladstein and MoreGrofman (with its [k86r]) are
    deterministic: for fixed histories and flag, two runs of [strategy]
    on arbitrary, possibly different, random sources return the same
    result and leave the same own state, and no value is drawn from the
    source. *)
Theorem deterministic_strategies
  (src1 src2 : nat -> Q) (n1 n2 : nat) :
  (forall w : World Tester,
     fst (Tester_strategy (reseed w src1 n1))
       = fst (Tester_strategy (reseed w src2 n2)) /\
     self (snd (Tester_strategy (reseed w src1 n1)))
       = self (snd (Tester_strategy (reseed w src2 n2))) /\
     random_drawn (snd (Tester_strategy (reseed w src1 n1))) = n1) /\
  (forall w : World Gladstein,
     fst (Gladstein_strategy (reseed w src1 n1))
       = fst (Gladstein_strategy (reseed w src2 n2)) /\
     self (snd (Gladstein_strategy (reseed w src1 n1)))
       = self (snd (Gladstein_strategy (reseed w src2 n2))) /\
     random_drawn (snd (Gladstein_strategy (reseed w src1 n1))) = n1) /\
  (forall w : World Player,
     fst (MoreGrofman_strategy (reseed w src1 n1))
       = fst (MoreGrofman_strategy (reseed w src2 n2)) /\
     self (snd (MoreGrofman_strategy (reseed w src1 n1)))
       = self (snd (MoreGrofman_strategy (reseed w src2 n2))) /\
     random_drawn (snd (MoreGrofman_strategy (reseed w src1 n1))) = n1) /\
  (forall (jpick : Action) (moven : Z) (ioppnt : list Action)
          (w : World Player),
     fst (k86r jpick moven ioppnt (reseed w src1 n1))
       = fst (k86r jpick moven ioppnt (reseed w src2 n2)) /\
     self (snd (k86r jpick moven ioppnt (reseed w src1 n1)))
       = self (snd (k86r jpick moven ioppnt (reseed w src2 n2))) /\
     random_drawn (snd (k86r jpick moven ioppnt (reseed w src1 n1))) = n1).
Proof.
  repeat apply conj; intros.
  - apply ignores_random_two_runs, Tester_ignores_random.
  - apply ignores_random_two_runs, Gladstein_ignores_random.
  - apply ignores_random_two_runs, MoreGrofman_ignores_random.
  - apply ignores_random_two_runs, k86r_ignores_random.
Qed.

(** Champion, by contrast, does consult the random source. *)
Lemma Champion_consults_random :
  ~ ignores_random Champion_strategy.
Proof.
  intro H.
  specialize (H (mkWorld (mkPlayer [C] 1 0 (Num (-1)))
                         (mkPlayer [D] 0 1 (Num (-1))) (fun _ => 0%Q) 0)
                (fun _ => 2%Q) 0%nat).
  vm_compute in H. discriminate.
Qed.

(* ================================================================== *)
(** ** MoreGrofman *)

Lemma py_index_nonneg {A : Type} (l : list A) (i : Z) :
  0 <= i < len l -> py_index l i = nth_error l (Z.to_nat i).
Proof.
  intros [H0 H1]. unfold py_index. cbv zeta.
  destruct (i <? 0) eqn:E; [apply Z.ltb_lt in E; lia|].
  rewrite E. destruct (len l <=? i) eqn:E2; [apply Z.leb_le in E2; lia|].
  reflexivity.
Qed.

Lemma skipn_nth_error {A : Type} (l : list A) :
  forall p : nat, (p < length l)%nat ->
    exists x, nth_error l p = Some x /\ skipn p l = x :: skipn (S p) l.
Proof.
  induction l as [|y t IH]; intros p Hp; [simpl in Hp; lia|].
  destruct p as [|p].
  - exists y. split; reflexivity.
  - simpl in Hp. destruct (IH p ltac:(lia)) as [x [E1 E2]].
    exists x. split; [exact E1|]. exact E2.
Qed.

Lemma count_cons (x : Action) (l : list Action) :
  count D (x :: l) = int_of_bool (Action_eqb x D) + count D l.
Proof.
  unfold count, len. destruct x; cbn [filter Action_eqb int_of_bool length].
  - lia.
  - rewrite Nat2Z.inj_succ. lia.
Qed.

(** The loop of [k86r] over [n] consecutive values of [i] starting at
    [p + 1] adds up the defections at the positions [p] to [p + n - 1]. *)
Lemma iprev7_loop {St : Type} (ioppnt : list Action) (w : World St) :
  forall (n p : nat) (acc : Z),
    (p + n <= length ioppnt)%nat ->
    for_each (map (fun i => Z.of_nat p + 1 + Z.of_nat i) (seq 0 n))
      (fun i iprev7 =>
         x <- getitem ioppnt (i - 1) ;;
         ret (iprev7 + int_of_bool (Action_eqb x D)))
      acc w
    = (Ok (acc + count D (firstn n (skipn p ioppnt))), w).
Proof.
  induction n as [|n IH]; intros p acc Hp.
  - cbn [seq map for_each firstn]. unfold ret, count. simpl. now rewrite Z.add_0_r.
  - destruct (skipn_nth_error ioppnt p ltac:(lia)) as [x [E1 E2]].
    cbn [seq map for_each]. unfold bind at 1. unfold bind at 1.
    unfold getitem. rewrite py_index_nonneg by (unfold len; lia).
    replace (Z.to_nat (Z.of_nat p + 1 + Z.of_nat 0 - 1)) with p by lia.
    rewrite E1. unfold ret at 1 2.
    rewrite <- seq_shift, map_map.
    rewrite (map_ext _ (fun i => Z.of_nat (S p) + 1 + Z.of_nat i))
      by (intro i; lia).
    rewrite IH by lia.
    rewrite E2. cbn [firstn]. rewrite count_cons. f_equal. f_equal. lia.
Qed.

(** What the loop of [k86r] computes from move 9 on: the defections
    among the eight positions [moven - 9] to [moven - 2]. *)
Lemma k86r_iprev7_eight_rounds {St : Type} (moven : Z)
  (ioppnt : list Action) (w : World St) :
  9 <= moven -> moven - 1 <= len ioppnt ->
  k86r_iprev7 moven ioppnt w =
    (Ok (count D (firstn 8 (skipn (Z.to_nat (moven - 9)) ioppnt))), w).
Proof.
  intros H9 Hlen. unfold k86r_iprev7, py_range. cbv zeta.
  replace (Z.to_nat (moven - 1 + 1 - (moven - 7 - 1))) with 8%nat by lia.
  rewrite (map_ext (fun i => moven - 7 - 1 + Z.of_nat i)
             (fun i => Z.of_nat (Z.to_nat (moven - 9)) + 1 + Z.of_nat i))
    by (intro i; lia).
  rewrite iprev7_loop by (unfold len in Hlen; lia).
  reflexivity.
Qed.

(** At move 8 the first index of the loop is [-1], the last item: the
    loop adds the seven moves and the most recent one a second time. *)
Lemma k86r_iprev7_move_8 {St : Type} (a0 a1 a2 a3 a4 a5 a6 : Action)
  (w : World St) :
  k86r_iprev7 8 [a0; a1; a2; a3; a4; a5; a6] w =
    (Ok (recent_defections 8 [a0; a1; a2; a3; a4; a5; a6]
         + int_of_bool (Action_eqb a6 D)), w).
Proof.
  destruct a0, a1, a2, a3, a4, a5, a6; reflexivity.
Qed.

(** C2 fails on the code. At move 9 against [D, D, D, C, C, C, C, C] the
    seven most recent rounds (positions 1 to 7) hold two defections, but
    the loop of [k86r] also adds position 0, the eighth most recent
    round: [iprev7] is 3, and MoreGrofman, whose previous move is
    Cooperate, returns Defect where two defections give Cooperate. *)
Theorem MoreGrofman_counts_eighth_round :
  len (history (self MoreGrofman_move_9)) + 1 = 9 /\
  recent_defections 9 (history (opponent MoreGrofman_move_9)) = 2 /\
  fst (k86r_iprev7 9 (history (opponent MoreGrofman_move_9))
         MoreGrofman_move_9) = Ok 3 /\
  fst (MoreGrofman_strategy MoreGrofman_move_9) = Ok D /\
  fst (MoreGrofman_strategy
         (mkWorld (mkPlayer [C; C; C; C; C; C; C; C] 8 0 (Num 200))
                  (mkPlayer [C; D; D; C; C; C; C; C] 6 2 (Num 200))
                  (fun _ => 0%Q) 0)) = Ok C.
Proof. repeat split. Qed.

(* ================================================================== *)
(** ** Matches: general facts about [play] *)

Lemma play_app_ok {St : Type} `{HasPlayer St} (strat : M St Action)
  (l1 l2 : list Action) :
  forall (w w1 : World St) (a1 : list Action),
    play strat l1 w = (Ok a1, w1) ->
    play strat (l1 ++ l2) w =
      match play strat l2 w1 with
      | (Ok a2, w2) => (Ok (a1 ++ a2), w2)
      | (Raise e, w2) => (Raise e, w2)
      end.
Proof.
  induction l1 as [|m t IH]; intros w w1 a1 E.
  - cbn [play] in E. unfold ret in E. injection E as <- <-.
    cbn [app]. destruct (play strat l2 w) as [[a2|e] w2]; reflexivity.
  - cbn [app]. cbn [play] in *. unfold bind, ret in *.
    destruct (play_round strat m w) as [[a|e] w'] eqn:Er; [|discriminate].
    destruct (play strat t w') as [[l|e] w''] eqn:Et; [|discriminate].
    injection E as <- <-.
    rewrite (IH w' w'' l Et).
    destruct (play strat l2 w'') as [[a2|e] w2]; reflexivity.
Qed.

(** A match in which the strategy's move and the opponent's move at
    round [k] are [mv k] and [opp k], and the strategy changes nothing:
    an invariant [I k] that yields the move and survives the round. *)
Lemma play_invariant {St : Type} `{HasPlayer St} (strat : M St Action)
  (I : nat -> World St -> Prop) (mv opp : nat -> Action) :
  (forall k w, I k w -> strat w = (Ok (mv k), w)) ->
  (forall k w, I k w -> I (S k) (engine_round (mv k) (opp k) w)) ->
  forall (n k : nat) (w : World St),
    I k w ->
    exists w',
      play strat (map opp (seq k n)) w = (Ok (map mv (seq k n)), w') /\
      I (k + n)%nat w' /\
      random_drawn w' = random_drawn w.
Proof.
  intros Hstep Hnext. induction n as [|n IH]; intros k w Hw.
  - exists w. rewrite Nat.add_0_r. repeat split. exact Hw.
  - cbn [seq map].
    rewrite (play_cons_ok strat (opp k) (map opp (seq (S k) n)) w _ _
               (Hstep k w Hw)).
    destruct (IH (S k) _ (Hnext k w Hw)) as (w' & E & Hw' & Hr).
    exists w'. rewrite E. repeat split.
    + now rewrite Nat.add_succ_r.
    + rewrite Hr. reflexivity.
Qed.

Lemma map_const_seq {A : Type} (a : A) (n k : nat) :
  map (fun _ => a) (seq k n) = repeat a n.
Proof.
  revert k. induction n as [|n IH]; intro k; [reflexivity|].
  cbn [seq map repeat]. now rewrite IH.
Qed.

(** Tit for tat: a mode [T] of the strategy in which it answers with the
    opponent's previous move, changes nothing, and which the engine's
    bookkeeping does not leave. *)
Lemma play_tit_for_tat {St : Type} `{HasPlayer St} (strat : M St Action)
  (T : World St -> Prop) :
  (forall w h a, T w -> history (opponent w) = h ++ [a] ->
                 strat w = (Ok a, w)) ->
  (forall w a m, T w -> T (engine_round a m w)) ->
  forall (ms : list Action) (w : World St) (h : list Action) (a : Action),
    T w -> history (opponent w) = h ++ [a] ->
    exists w',
      play strat ms w = (Ok (firstn (length ms) (a :: ms)), w') /\ T w'.
Proof.
  intros Hstep Hnext. induction ms as [|m rest IH]; intros w h a Hw Hh.
  - exists w. split; [reflexivity|exact Hw].
  - rewrite (play_cons_ok strat m rest w a w (Hstep w h a Hw Hh)).
    assert (Hh1 : history (opponent (engine_round a m w)) = (h ++ [a]) ++ [m])
      by (cbn; now rewrite Hh).
    destruct (IH _ (h ++ [a]) m (Hnext w a m Hw) Hh1) as (w' & E & Hw').
    exists w'. rewrite E. split; [reflexivity|exact Hw'].
Qed.

(** Every sequence of moves is all Cooperate, or has a first Defect. *)
Lemma first_defection (ms : list Action) :
  ms = repeat C (length ms) \/
  exists k rest, ms = repeat C k ++ D :: rest.
Proof.
  induction ms as [|[|] t IH].
  - now left.
  - destruct IH as [E|(k & rest & E)].
    + left. cbn [length repeat]. now rewrite <- E.
    + right. exists (S k), rest. cbn [repeat app]. now rewrite E.
  - right. now exists 0%nat, t.
Qed.

(** A strategy that plays [mv k] at round [k] while the opponent has only
    cooperated (invariant [I]) and, once the opponent's previous move is
    its first Defect, apologizes and then plays tit for tat. *)
Lemma play_first_defection {St : Type} `{HasPlayer St} (strat : M St Action)
  (I : nat -> World St -> Prop) (mv : nat -> Action) :
  (forall k w, I k w -> strat w = (Ok (mv k), w)) ->
  (forall k w, I k w -> I (S k) (engine_round (mv k) C w)) ->
  (forall k w rest, I k w ->
     fst (play strat rest (engine_round (mv k) D w))
       = Ok (firstn (length rest) (C :: rest))) ->
  forall (k : nat) (rest : list Action) (w : World St),
    I 0%nat w ->
    fst (play strat (repeat C k ++ D :: rest) w)
      = Ok (map mv (seq 0 (S k)) ++ firstn (length rest) (C :: rest)).
Proof.
  intros Hstep Hnext Hafter k rest w Hw.
  destruct (play_invariant strat I mv (fun _ => C) Hstep Hnext k 0%nat w Hw)
    as (w1 & E & Hw1 & _).
  rewrite map_const_seq in E. cbn [Nat.add] in Hw1.
  rewrite (play_app_ok strat (repeat C k) (D :: rest) w w1 _ E).
  rewrite (play_cons_ok strat D rest w1 _ _ (Hstep k w1 Hw1)).
  specialize (Hafter k w1 rest Hw1).
  destruct (play strat rest (engine_round (mv k) D w1)) as [[l|e] w2];
    cbn [fst] in *; [|discriminate].
  injection Hafter as ->.
  rewrite seq_S, map_app. cbn [map Nat.add]. now rewrite <- app_assoc.
Qed.

Lemma firstn_repeat_succ {A : Type} (a : A) (n : nat) :
  firstn n (repeat a (S n)) = repeat a n.
Proof.
  induction n as [|n IH]; [reflexivity|].
  change (repeat a (S (S n))) with (a :: repeat a (S n)).
  rewrite firstn_cons, IH. reflexivity.
Qed.

(* ================================================================== *)
(** ** Tester: the whole match *)

(** Once the opponent's previous move is a Defect that Tester has not
    answered yet, its moves are the apology and then the opponent's
    previous moves. *)
Lemma Tester_after_defection (rest : list Action) (w : World Tester)
  (h : list Action) :
  is_TFT (self w) = false ->
  history (opponent w) = h ++ [D] ->
  fst (play Tester_strategy rest w) = Ok (firstn (length rest) (C :: rest)).
Proof.
  intros Hf Hh. destruct rest as [|m rest']; [reflexivity|].
  assert (Hl : py_index (history (opponent w)) (-1) = Some D)
    by (rewrite Hh; apply py_index_last).
  rewrite (play_cons_ok Tester_strategy m rest' w C _
             (Tester_apology_step w Hf Hl)).
  set (w1 := engine_round C m _).
  assert (Hf1 : is_TFT (self w1) = true) by reflexivity.
  assert (Hh1 : history (opponent w1) = (h ++ [D]) ++ [m])
    by (subst w1; cbn; now rewrite Hh).
  destruct (Tester_TFT_play rest' w1 (h ++ [D]) m Hf1 Hh1) as [P1 _].
  destruct (play Tester_strategy rest' w1) as [r w2].
  cbn [fst] in P1. subst r. reflexivity.
Qed.

Lemma Tester_cooperator_start (l1 l2 : number) (src : nat -> Q) (n : nat) :
  Tester_cooperator_world 0 (mkWorld (Tester_init l1) (fresh_player l2) src n).
Proof. repeat split. Qed.

Lemma Tester_first_defection (k : nat) (rest : list Action)
  (w : World Tester) :
  Tester_cooperator_world 0 w ->
  fst (play Tester_strategy (repeat C k ++ D :: rest) w)
    = Ok (map Tester_vs_cooperator (seq 0 (S k))
          ++ firstn (length rest) (C :: rest)).
Proof.
  apply (play_first_defection Tester_strategy Tester_cooperator_world
           Tester_vs_cooperator).
  - exact Tester_cooperator_step.
  - exact Tester_cooperator_next.
  - intros j w' rest' (Hown & Hopp & Hf).
    apply (Tester_after_defection rest' _ (repeat C j)).
    + exact Hf.
    + cbn. now rewrite Hopp.
Qed.

(** X1. Tester in a whole match, from its initial state, against an
    opponent whose first Defect comes after [k] Cooperates: it plays
    D, C, C, D, C, D, ... up to and including the round of that Defect,
    Cooperate (the apology) in the next round, and from then on the
    opponent's previous move. *)
Theorem Tester_whole_match (k : nat) (rest : list Action)
  (l1 l2 : number) (src : nat -> Q) (n : nat) :
  fst (play Tester_strategy (repeat C k ++ D :: rest)
         (mkWorld (Tester_init l1) (fresh_player l2) src n))
    = Ok (map Tester_vs_cooperator (seq 0 (S k))
          ++ firstn (length rest) (C :: rest)).
Proof. apply Tester_first_defection, Tester_cooperator_start. Qed.

(** X2. A call of [Tester.strategy] never clears [is_TFT], and it sets it
    only in an apology: when the flag goes from false to true the move
    returned is Cooperate and the opponent's previous move was Defect. *)
Theorem Tester_flag_changes_only_in_apology (w : World Tester) :
  (is_TFT (self w) = true ->
     is_TFT (self (snd (Tester_strategy w))) = true) /\
  (is_TFT (self w) = false ->
     is_TFT (self (snd (Tester_strategy w))) = true ->
     fst (Tester_strategy w) = Ok C /\
     py_index (history (opponent w)) (-1) = Some D).
Proof.
  split; [apply Tester_flag_stays_set|].
  intro Hf. unfold Tester_strategy. run.
  destruct (history (opponent w)) as [|x t] eqn:Eo; run.
  - rewrite Hf. discriminate.
  - rewrite Hf.
    destruct (py_index (x :: t) (-1)) as [a|] eqn:El; run.
    + destruct a; cbn [Action_eqb]; run.
      * destruct (existsb _ _); run; [rewrite Hf; discriminate|].
        destruct (py_index (history (Tester_player (self w))) (-1)); run;
          rewrite Hf; discriminate.
      * intros _. split; reflexivity.
    + rewrite Hf. discriminate.
Qed.

Lemma Tester_flag_changes_only_in_apology_witness :
  fst (Tester_strategy
         (mkWorld (mkTester (mkPlayer [D; C] 1 1 (Num 200)) false)
                  (mkPlayer [C; D] 1 1 (Num 200)) (fun _ => 0%Q) 0)) = Ok C.
Proof.
  refine (proj1 (proj2 (Tester_flag_changes_only_in_apology
    (mkWorld (mkTester (mkPlayer [D; C] 1 1 (Num 200)) false)
             (mkPlayer [C; D] 1 1 (Num 200)) (fun _ => 0%Q) 0)) _ _)).
  - reflexivity.
  - reflexivity.
Defined.

(* ================================================================== *)
(** ** Gladstein: the whole match *)

Lemma Tester_vs_cooperator_parity (k : nat) :
  (2 <= k)%nat ->
  Tester_vs_cooperator k = if Nat.even k then C else D.
Proof.
  intro Hk. induction k as [|k IH]; [lia|].
  destruct k as [|[|k]]; [lia|reflexivity|].
  change (Tester_vs_cooperator (S (S (S k))))
    with (flip (Tester_vs_cooperator (S (S k)))).
  rewrite IH by lia.
  rewrite (Nat.even_succ (S (S k))), <- Nat.negb_even.
  destruct (Nat.even (S (S k))); reflexivity.
Qed.

Lemma count_snoc (a x : Action) (l : list Action) :
  count a (l ++ [x]) = count a l + int_of_bool (Action_eqb x a).
Proof.
  unfold count, len. rewrite filter_app, length_app, Nat2Z.inj_add.
  f_equal. destruct a, x; reflexivity.
Qed.

(** Twice the number of Cooperates among the first [k] moves of the
    sequence D, C, C, D, C, D, ... is [k], plus one when [k] is odd. *)
Lemma cooperations_vs_cooperator (k : nat) :
  (2 <= k)%nat ->
  2 * count C (map Tester_vs_cooperator (seq 0 k))
    = Z.of_nat k + (if Nat.even k then 0 else 1).
Proof.
  intro Hk. induction k as [|k IH]; [lia|].
  destruct (Nat.eq_dec k 1) as [->|Hne]; [reflexivity|].
  rewrite seq_S, map_app. cbn [map Nat.add]. rewrite count_snoc.
  rewrite Z.mul_add_distr_l, IH by lia.
  rewrite Tester_vs_cooperator_parity by lia.
  rewrite Nat.even_succ, <- Nat.negb_even.
  destruct (Nat.even k); cbn [negb Action_eqb int_of_bool]; lia.
Qed.

Lemma ratio_above_half (c n : Z) :
  0 < n ->
  Qlt_bool (1 # 2) (inject_Z c / inject_Z n) = (n <? 2 * c).
Proof.
  intro Hn.
  assert (H : (1 # 2 < inject_Z c / inject_Z n)%Q <-> n < 2 * c).
  { destruct n as [|p|p]; try lia.
    unfold Qlt, Qdiv, Qmult, Qinv, inject_Z. cbn -[Z.mul].
    rewrite ?Pos.mul_1_l. lia. }
  destruct (n <? 2 * c) eqn:E.
  - apply Qlt_bool_iff, H. now apply Z.ltb_lt.
  - apply Qlt_bool_false_iff. apply Qnot_lt_le. intro Hlt.
    apply H in Hlt. apply Z.ltb_ge in E. lia.
Qed.

Lemma Gladstein_cooperator_step (k : nat) (w : World Gladstein) :
  Gladstein_cooperator_world k w ->
  Gladstein_strategy w = (Ok (Tester_vs_cooperator k), w).
Proof.
  intros (Hown & Hcoop & Hopp & Hp). unfold Gladstein_strategy. run.
  rewrite Hown.
  destruct k as [|k]; [reflexivity|].
  destruct (map Tester_vs_cooperator (seq 0 (S k))) as [|x t] eqn:Em;
    [discriminate|].
  run. rewrite Hp, Hopp, repeat_snoc, py_index_last. cbn [Action_eqb]. run.
  rewrite len_cons_neq_0. run.
  rewrite <- Em in Hcoop |- *. rewrite Hcoop.
  unfold len. rewrite length_map, length_seq.
  rewrite ratio_above_half by lia.
  destruct k as [|k]; [reflexivity|].
  pose proof (cooperations_vs_cooperator (S (S k)) ltac:(lia)) as Hc.
  rewrite Tester_vs_cooperator_parity by lia.
  destruct (Nat.even (S (S k)));
    [destruct (Z.ltb_spec (Z.of_nat (S (S k)))
        (2 * count C (map Tester_vs_cooperator (seq 0 (S (S k))))));
       [lia|reflexivity]
    |destruct (Z.ltb_spec (Z.of_nat (S (S k)))
        (2 * count C (map Tester_vs_cooperator (seq 0 (S (S k))))));
       [reflexivity|lia]].
Qed.

Lemma Gladstein_cooperator_next (k : nat) (w : World Gladstein) :
  Gladstein_cooperator_world k w ->
  Gladstein_cooperator_world (S k)
    (engine_round (Tester_vs_cooperator k) C w).
Proof.
  intros (Hown & Hcoop & Hopp & Hp). repeat split.
  - change (history (Gladstein_player (self w)) ++ [Tester_vs_cooperator k]
            = map Tester_vs_cooperator (seq 0 (S k))).
    rewrite Hown, seq_S, map_app. reflexivity.
  - change (cooperations (Gladstein_player (self w))
              + int_of_bool (Action_eqb (Tester_vs_cooperator k) C)
            = count C (map Tester_vs_cooperator (seq 0 (S k)))).
    rewrite Hcoop, seq_S, map_app. cbn [map Nat.add].
    now rewrite count_snoc.
  - change (history (opponent w) ++ [C] = repeat C (S k)).
    rewrite Hopp. symmetry. apply repeat_snoc.
  - exact Hp.
Qed.

Lemma Gladstein_cooperator_start (l1 l2 : number) (src : nat -> Q) (n : nat) :
  Gladstein_cooperator_world 0
    (mkWorld (Gladstein_init l1) (fresh_player l2) src n).
Proof. repeat split. Qed.

(** After the apology Gladstein answers with the opponent's previous
    move and touches nothing. *)
Lemma Gladstein_TFT_step (w : World Gladstein) (h : list Action)
  (a : Action) :
  patsy (self w) = false /\ history (Gladstein_player (self w)) <> [] ->
  history (opponent w) = h ++ [a] ->
  Gladstein_strategy w = (Ok a, w).
Proof.
  intros [Hp Hne] Hh. unfold Gladstein_strategy. run.
  destruct (history (Gladstein_player (self w))) as [|x t]; [congruence|].
  run. rewrite Hp, Hh, py_index_last. reflexivity.
Qed.

Lemma Gladstein_apology_step (w : World Gladstein) :
  patsy (self w) = true ->
  history (Gladstein_player (self w)) <> [] ->
  py_index (history (opponent w)) (-1) = Some D ->
  Gladstein_strategy w =
    (Ok C, mkWorld (mkGladstein (Gladstein_player (self w)) false)
                   (opponent w) (random_source w) (random_drawn w)).
Proof.
  intros Hp Hne Hl. unfold Gladstein_strategy. run.
  destruct (history (Gladstein_player (self w))) as [|x t]; [congruence|].
  run. rewrite Hp, Hl. reflexivity.
Qed.

Lemma Gladstein_TFT_play (ms : list Action) (w : World Gladstein)
  (h : list Action) (a : Action) :
  patsy (self w) = false /\ history (Gladstein_player (self w)) <> [] ->
  history (opponent w) = h ++ [a] ->
  exists w',
    play Gladstein_strategy ms w = (Ok (firstn (length ms) (a :: ms)), w') /\
    (patsy (self w') = false /\ history (Gladstein_player (self w')) <> []).
Proof.
  apply (play_tit_for_tat Gladstein_strategy
           (fun w => patsy (self w) = false /\
                     history (Gladstein_player (self w)) <> [])).
  - exact Gladstein_TFT_step.
  - intros w0 a0 m [Hp Hne]. split; [exact Hp|].
    cbn. intro E. apply app_eq_nil in E. destruct E; discriminate.
Qed.

Lemma Gladstein_after_defection (rest : list Action) (w : World Gladstein)
  (h : list Action) :
  patsy (self w) = true ->
  history (Gladstein_player (self w)) <> [] ->
  history (opponent w) = h ++ [D] ->
  fst (play Gladstein_strategy rest w)
    = Ok (firstn (length rest) (C :: rest)) /\
  (rest <> [] -> patsy (self (snd (play Gladstein_strategy rest w))) = false).
Proof.
  intros Hp Hne Hh. destruct rest as [|m rest']; [split; [reflexivity|congruence]|].
  assert (Hl : py_index (history (opponent w)) (-1) = Some D)
    by (rewrite Hh; apply py_index_last).
  rewrite (play_cons_ok Gladstein_strategy m rest' w C _
             (Gladstein_apology_step w Hp Hne Hl)).
  set (w1 := engine_round C m _).
  assert (HT : patsy (self w1) = false /\
               history (Gladstein_player (self w1)) <> []).
  { split; [reflexivity|]. subst w1. cbn. intro E.
    apply app_eq_nil in E. destruct E; discriminate. }
  assert (Hh1 : history (opponent w1) = (h ++ [D]) ++ [m])
    by (subst w1; cbn; now rewrite Hh).
  destruct (Gladstein_TFT_play rest' w1 (h ++ [D]) m HT Hh1)
    as (w' & E & Hp' & _).
  rewrite E. split; [reflexivity|]. intros _. exact Hp'.
Qed.

Lemma Gladstein_first_defection (k : nat) (rest : list Action)
  (w : World Gladstein) :
  Gladstein_cooperator_world 0 w ->
  fst (play Gladstein_strategy (repeat C k ++ D :: rest) w)
    = Ok (map Tester_vs_cooperator (seq 0 (S k))
          ++ firstn (length rest) (C :: rest)).
Proof.
  apply (play_first_defection Gladstein_strategy Gladstein_cooperator_world
           Tester_vs_cooperator).
  - exact Gladstein_cooperator_step.
  - exact Gladstein_cooperator_next.
  - intros j w' rest' (Hown & Hcoop & Hopp & Hp).
    apply (Gladstein_after_defection rest' _ (repeat C j)).
    + exact Hp.
    + cbn. intro E. apply app_eq_nil in E. destruct E; discriminate.
    + cbn. now rewrite Hopp.
Qed.

Lemma Gladstein_cooperator_play (n : nat) (w : World Gladstein) :
  Gladstein_cooperator_world 0 w ->
  fst (play Gladstein_strategy (repeat C n) w)
    = Ok (map Tester_vs_cooperator (seq 0 n)).
Proof.
  intro Hw.
  destruct (play_invariant Gladstein_strategy Gladstein_cooperator_world
              Tester_vs_cooperator (fun _ => C)
              Gladstein_cooperator_step Gladstein_cooperator_next
              n 0%nat w Hw) as (w' & E & _).
  rewrite map_const_seq in E. now rewrite E.
Qed.

(** X3. Gladstein against an opponent who always cooperates, from its
    initial state: the cooperation-ratio rule produces D, C, C, D, C, D,
    C, ... (Defect at round 0, Cooperate at rounds 1 and 2, then Defect
    at the odd rounds), the very sequence Tester produces by flipping. *)
Theorem Gladstein_against_cooperator (n : nat) (l1 l2 : number)
  (src : nat -> Q) (k : nat) :
  fst (play Gladstein_strategy (repeat C n)
         (mkWorld (Gladstein_init l1) (fresh_player l2) src k))
    = Ok (map Tester_vs_cooperator (seq 0 n)) /\
  (forall i, (2 <= i)%nat ->
     Tester_vs_cooperator i = if Nat.even i then C else D).
Proof.
  split.
  - apply Gladstein_cooperator_play, Gladstein_cooperator_start.
  - exact Tester_vs_cooperator_parity.
Qed.

(** X4. Gladstein in a whole match, from its initial state, against an
    opponent whose first Defect comes after [k] Cooperates: D, C, C, D,
    C, D, ... up to and including the round of that Defect, Cooperate
    (the apology) in the next round, and from then on the opponent's
    previous move. *)
Theorem Gladstein_whole_match (k : nat) (rest : list Action)
  (l1 l2 : number) (src : nat -> Q) (n : nat) :
  fst (play Gladstein_strategy (repeat C k ++ D :: rest)
         (mkWorld (Gladstein_init l1) (fresh_player l2) src n))
    = Ok (map Tester_vs_cooperator (seq 0 (S k))
          ++ firstn (length rest) (C :: rest)).
Proof. apply Gladstein_first_defection, Gladstein_cooperator_start. Qed.

(** X5. Gladstein, with [patsy] still true and a non-empty own history,
    in a round where the opponent's previous move is Defect: it returns
    Cooperate and clears [patsy]; whatever the opponent plays from this
    round on ([m :: rest]), [patsy] is false at the end and Gladstein's
    moves are Cooperate followed by the opponent's previous moves. *)
Theorem Gladstein_apologizes_then_TFT (w : World Gladstein)
  (m : Action) (rest : list Action) :
  patsy (self w) = true ->
  history (Gladstein_player (self w)) <> [] ->
  py_index (history (opponent w)) (-1) = Some D ->
  fst (play Gladstein_strategy (m :: rest) w)
    = Ok (C :: removelast (m :: rest)) /\
  patsy (self (snd (play Gladstein_strategy (m :: rest) w))) = false.
Proof.
  intros Hp Hne Hl.
  destruct (history (opponent w)) as [|x t] eqn:Eo.
  { rewrite py_index_nil in Hl. discriminate. }
  assert (Hn : x :: t <> []) by discriminate.
  destruct (nonempty_snoc _ Hn) as (h & a & Eh). rewrite Eh in *.
  rewrite py_index_last in Hl. injection Hl as ->.
  destruct (Gladstein_after_defection (m :: rest) w h Hp Hne Eo) as [P1 P2].
  split; [|apply P2; discriminate].
  rewrite P1. f_equal.
  change (length (m :: rest)) with (S (length rest)). rewrite firstn_cons.
  f_equal. destruct rest as [|y r]; [reflexivity|].
  rewrite firstn_length_cons by discriminate. reflexivity.
Qed.

Lemma Gladstein_apologizes_then_TFT_witness :
  fst (play Gladstein_strategy [C; D; D; C]
         (mkWorld (mkGladstein (mkPlayer [D; C] 1 1 (Num 200)) true)
                  (mkPlayer [C; D] 1 1 (Num 200)) (fun _ => 0%Q) 0))
  = Ok [C; C; D; D].
Proof.
  refine (proj1 (Gladstein_apologizes_then_TFT
    (mkWorld (mkGladstein (mkPlayer [D; C] 1 1 (Num 200)) true)
             (mkPlayer [C; D] 1 1 (Num 200)) (fun _ => 0%Q) 0)
    C [D; D; C] _ _ _)).
  - reflexivity.
  - simpl. discriminate.
  - reflexivity.
Defined.

(** X6. Tester and Gladstein play the same moves in every match: from
    their initial states, against any sequence of opponent moves, the
    two lists of moves are equal (and no call raises). *)
Theorem Tester_and_Gladstein_play_alike (ms : list Action)
  (l1 l2 l3 l4 : number) (src1 src2 : nat -> Q) (n1 n2 : nat) :
  fst (play Tester_strategy ms
         (mkWorld (Tester_init l1) (fresh_player l2) src1 n1))
  = fst (play Gladstein_strategy ms
           (mkWorld (Gladstein_init l3) (fresh_player l4) src2 n2)) /\
  exists moves,
    fst (play Tester_strategy ms
           (mkWorld (Tester_init l1) (fresh_player l2) src1 n1)) = Ok moves /\
    length moves = length ms.
Proof.
  destruct (first_defection ms) as [E|(k & rest & E)]; rewrite E.
  - rewrite (Tester_cooperator_play (length ms) 0%nat _
               (Tester_cooperator_start l1 l2 src1 n1)).
    rewrite (Gladstein_cooperator_play (length ms) _
               (Gladstein_cooperator_start l3 l4 src2 n2)).
    split; [reflexivity|]. eexists. split; [reflexivity|].
    now rewrite length_map, length_seq, repeat_length.
  - rewrite (Tester_first_defection k rest _
               (Tester_cooperator_start l1 l2 src1 n1)).
    rewrite (Gladstein_first_defection k rest _
               (Gladstein_cooperator_start l3 l4 src2 n2)).
    split; [reflexivity|]. eexists. split; [reflexivity|].
    rewrite !length_app, length_map, length_seq, repeat_length.
    rewrite length_firstn. cbn [length]. lia.
Qed.

(** X7. Against an opponent who always defects, Tester and Gladstein
    both play Defect, then Cooperate (the apology), then Defect for the
    rest of the match. *)
Theorem exploiters_against_defector (n : nat) (l1 l2 : number)
  (src : nat -> Q) (k : nat) :
  fst (play Tester_strategy (repeat D (S (S n)))
         (mkWorld (Tester_init l1) (fresh_player l2) src k))
    = Ok (D :: C :: repeat D n) /\
  fst (play Gladstein_strategy (repeat D (S (S n)))
         (mkWorld (Gladstein_init l1) (fresh_player l2) src k))
    = Ok (D :: C :: repeat D n).
Proof.
  change (repeat D (S (S n))) with (repeat C 0 ++ D :: repeat D (S n)).
  rewrite (Tester_first_defection 0 (repeat D (S n)) _
             (Tester_cooperator_start l1 l2 src k)).
  rewrite (Gladstein_first_defection 0 (repeat D (S n)) _
             (Gladstein_cooperator_start l1 l2 src k)).
  rewrite repeat_length, firstn_cons, firstn_repeat_succ.
  split; reflexivity.
Qed.

(* ================================================================== *)
(** ** Champion and Eatherley: phases and niceness *)

(** For an integer match length [n] the two float thresholds are the
    integer tests [20 * round < n] and [8 * round < n]. *)
Lemma Champion_thresholds_integer (cr n : Z) :
  int_lt cr (num_div (Num (inject_Z n)) 20) = (20 * cr <? n) /\
  int_lt cr (num_div (num_mul (Num (inject_Z n)) 5) 40) = (8 * cr <? n).
Proof.
  cbn [int_lt num_div num_mul].
  assert (H1 : (inject_Z cr < inject_Z n / inject_Z 20)%Q <-> 20 * cr < n).
  { unfold Qlt, Qdiv, Qmult, Qinv, inject_Z. cbn -[Z.mul]. lia. }
  assert (H2 : (inject_Z cr < inject_Z n * inject_Z 5 / inject_Z 40)%Q
               <-> 8 * cr < n).
  { unfold Qlt, Qdiv, Qmult, Qinv, inject_Z. cbn -[Z.mul]. lia. }
  split.
  - destruct (20 * cr <? n) eqn:E.
    + apply Qlt_bool_iff, H1. now apply Z.ltb_lt.
    + apply Qlt_bool_false_iff, Qnot_lt_le. intro Hlt. apply H1 in Hlt.
      apply Z.ltb_ge in E. lia.
  - destruct (8 * cr <? n) eqn:E.
    + apply Qlt_bool_iff, H2. now apply Z.ltb_lt.
    + apply Qlt_bool_false_iff, Qnot_lt_le. intro Hlt. apply H2 in Hlt.
      apply Z.ltb_ge in E. lia.
Qed.

(** X8. Champion with an integer match length [n] of magnitude at most
    2^53 (every such length and every multiple of 1/8 of it is a double,
    and a twentieth of it is rounded by less than 1/20), at round index
    [cr]: while [20 * cr < n] (the first twentieth of the match) it
    returns Cooperate; from then on, while [8 * cr < n], it returns the
    opponent's previous move; in both phases it draws nothing and changes
    nothing.  With [n = 200] these are the docstring's first 10 moves and
    next 15 moves. *)
Theorem Champion_first_two_phases (w : World Player) (n : Z) :
  match_length (self w) = Num (inject_Z n) ->
  Z.abs n <= 2 ^ 53 ->
  (20 * len (history (self w)) < n -> Champion_strategy w = (Ok C, w)) /\
  (forall a,
     n <= 20 * len (history (self w)) ->
     8 * len (history (self w)) < n ->
     py_index (history (opponent w)) (-1) = Some a ->
     Champion_strategy w = (Ok a, w)).
Proof.
  intros Hn _.
  destruct (Champion_thresholds_integer (len (history (self w))) n)
    as [T1 T2].
  pose proof (len_nonneg (history (self w))) as Hcr.
  split.
  - intro H. unfold Champion_strategy. run. rewrite Hn, T1.
    apply Z.ltb_lt in H. rewrite H.
    destruct (len (history (self w)) =? 0); reflexivity.
  - intros a H1 H2 Hl. unfold Champion_strategy. run. rewrite Hn, T1, T2.
    apply Z.ltb_ge in H1. apply Z.ltb_lt in H2. rewrite H1, H2.
    destruct (len (history (self w)) =? 0) eqn:E0.
    { apply Z.eqb_eq in E0. apply Z.ltb_ge in H1. lia. }
    run. rewrite Hl. reflexivity.
Qed.

Lemma Champion_first_two_phases_witness :
  Champion_strategy
    (mkWorld (mkPlayer (repeat C 10) 10 0 (Num 200))
             (mkPlayer (repeat C 9 ++ [D]) 9 1 (Num 200)) (fun _ => 0%Q) 0)
  = (Ok D, mkWorld (mkPlayer (repeat C 10) 10 0 (Num 200))
                   (mkPlayer (repeat C 9 ++ [D]) 9 1 (Num 200))
                   (fun _ => 0%Q) 0).
Proof.
  refine (proj2 (Champion_first_two_phases
    (mkWorld (mkPlayer (repeat C 10) 10 0 (Num 200))
             (mkPlayer (repeat C 9 ++ [D]) 9 1 (Num 200)) (fun _ => 0%Q) 0)
    200 _ _) D _ _ _).
  - reflexivity.
  - vm_compute. discriminate.
  - vm_compute. discriminate.
  - vm_compute. reflexivity.
  - reflexivity.
Defined.

(** X9. Champion and Eatherley never defect unprovoked: whenever a call
    returns Defect, the opponent's previous move was Defect. *)
Theorem Champion_and_Eatherley_defect_only_after_defection
  (w : World Player) :
  (fst (Champion_strategy w) = Ok D ->
     py_index (history (opponent w)) (-1) = Some D) /\
  (fst (Eatherley_strategy w) = Ok D ->
     py_index (history (opponent w)) (-1) = Some D).
Proof.
  split.
  - unfold Champion_strategy. run.
    destruct (len (history (self w)) =? 0); [discriminate|].
    destruct (int_lt _ (num_div (match_length (self w)) 20));
      [discriminate|]. run.
    destruct (int_lt _ _); run.
    + destruct (py_index (history (opponent w)) (-1)) as [a|]; run;
        [|discriminate]. intro E. injection E as ->. reflexivity.
    + destruct (len (history (opponent w)) =? 0); run; [discriminate|].
      destruct (py_index (history (opponent w)) (-1)) as [a|]; run;
        [|discriminate].
      destruct a; cbn [Action_eqb]; run; [discriminate|reflexivity].
  - unfold Eatherley_strategy. run.
    destruct (len (history (opponent w)) =? 0); [discriminate|]. run.
    destruct (py_index (history (opponent w)) (-1)) as [a|]; run;
      [|discriminate].
    destruct a; cbn [Action_eqb]; run; [discriminate|reflexivity].
Qed.

Lemma Champion_and_Eatherley_defect_only_after_defection_witness :
  py_index [D; C; D] (-1) = Some D.
Proof.
  refine (proj2 (Champion_and_Eatherley_defect_only_after_defection
    (mkWorld (mkPlayer [C; C; C] 3 0 (Num 200))
             (mkPlayer [D; C; D] 1 2 (Num 200)) (fun _ => (1 # 2)%Q) 0)) _).
  reflexivity.
Defined.

(** The engine's bookkeeping after a round in which both cooperated. *)
Lemma both_cooperated_next (k : nat) (w : World Player) :
  history (self w) = repeat C k /\ history (opponent w) = repeat C k ->
  history (self (engine_round C C w)) = repeat C (S k) /\
  history (opponent (engine_round C C w)) = repeat C (S k).
Proof.
  intros [Hown Hopp]. rewrite repeat_snoc. cbn.
  now rewrite Hown, Hopp.
Qed.

Lemma Eatherley_cooperator_step (k : nat) (w : World Player) :
  history (self w) = repeat C k /\ history (opponent w) = repeat C k ->
  Eatherley_strategy w = (Ok C, w).
Proof.
  intros [_ Hopp]. unfold Eatherley_strategy. run. rewrite Hopp.
  destruct k as [|k]; [reflexivity|].
  destruct (len (repeat C (S k)) =? 0); [reflexivity|]. run.
  rewrite repeat_snoc, py_index_last. reflexivity.
Qed.

(** X11. Eatherley against an opponent who always cooperates: it
    cooperates in every round and never draws from the random source. *)
Theorem Eatherley_against_cooperator (n : nat) (l1 l2 : number)
  (src : nat -> Q) (k : nat) :
  fst (play Eatherley_strategy (repeat C n)
         (mkWorld (fresh_player l1) (fresh_player l2) src k))
    = Ok (repeat C n) /\
  random_drawn (snd (play Eatherley_strategy (repeat C n)
         (mkWorld (fresh_player l1) (fresh_player l2) src k))) = k.
Proof.
  destruct (play_invariant Eatherley_strategy
              (fun j w => history (self w) = repeat C j /\
                          history (opponent w) = repeat C j)
              (fun _ => C) (fun _ => C)
              Eatherley_cooperator_step both_cooperated_next
              n 0%nat (mkWorld (fresh_player l1) (fresh_player l2) src k)
              (conj eq_refl eq_refl)) as (w' & E & _ & Hr).
  rewrite !map_const_seq in E. rewrite E. split; [reflexivity|exact Hr].
Qed.

(* ================================================================== *)
(** ** MoreGrofman: phases, window and safety *)

(** [jpick]: the opponent's previous move, Cooperate when there is none. *)
Lemma MoreGrofman_jpick {St : Type} (h : list Action) (w : World St) :
  (if len h >=? 1 then getitem h (-1) else ret C) w
  = (Ok (match py_index h (-1) with Some a => a | None => C end), w).
Proof.
  destruct h as [|x t].
  - reflexivity.
  - assert (E : (len (x :: t) >=? 1) = true).
    { rewrite Z.geb_leb. apply Z.leb_le. unfold len. cbn [length]. lia. }
    rewrite E. unfold getitem.
    destruct (py_index_last_some (x :: t) ltac:(discriminate)) as [a Ha].
    rewrite Ha. reflexivity.
Qed.

Lemma MoreGrofman_unfold (w : World Player) :
  MoreGrofman_strategy w =
    k86r (match py_index (history (opponent w)) (-1) with
          | Some a => a | None => C end)
         (len (history (self w)) + 1) (history (opponent w)) w.
Proof.
  unfold MoreGrofman_strategy.
  unfold bind at 1. unfold gets at 1. unfold bind at 1.
  rewrite MoreGrofman_jpick. reflexivity.
Qed.

Lemma k86r_early (jpick : Action) (moven : Z) (ioppnt : list Action)
  (w : World Player) :
  (moven <= 2 -> k86r jpick moven ioppnt w = (Ok C, w)) /\
  (2 < moven <= 7 -> k86r jpick moven ioppnt w = (Ok jpick, w)).
Proof.
  unfold k86r. rewrite !Z.gtb_ltb. split; intro H.
  - destruct (Z.ltb_spec 2 moven); [lia|reflexivity].
  - destruct (Z.ltb_spec 2 moven); [|lia].
    destruct (Z.ltb_spec 7 moven); [lia|reflexivity].
Qed.

(** The four tests at the end of [k86r] cover every case. *)
Lemma k86r_late (jpick myold : Action) (moven iprev7 : Z)
  (ioppnt : list Action) (w : World Player) :
  7 < moven ->
  py_index (history (self w)) (-1) = Some myold ->
  k86r_iprev7 moven ioppnt w = (Ok iprev7, w) ->
  k86r jpick moven ioppnt w = (Ok (k86r_table myold iprev7), w).
Proof.
  intros Hm Hmy Hloop. unfold k86r. rewrite !(Z.gtb_ltb moven).
  destruct (Z.ltb_spec 2 moven); [|lia].
  destruct (Z.ltb_spec 7 moven); [|lia].
  cbn [negb]. run. rewrite Hmy. run. rewrite Hloop.
  unfold k86r_table. rewrite !Z.gtb_ltb.
  destruct myold; cbn [Action_eqb andb].
  - destruct (Z.leb_spec iprev7 2), (Z.ltb_spec 2 iprev7);
      try reflexivity; lia.
  - destruct (Z.leb_spec iprev7 1), (Z.ltb_spec 1 iprev7);
      try reflexivity; lia.
Qed.

Lemma length_7 {A : Type} (l : list A) :
  length l = 7%nat ->
  exists a0 a1 a2 a3 a4 a5 a6, l = [a0; a1; a2; a3; a4; a5; a6].
Proof.
  intro H.
  destruct l as [|a0 [|a1 [|a2 [|a3 [|a4 [|a5 [|a6 [|a7 t]]]]]]]];
    try discriminate.
  now exists a0, a1, a2, a3, a4, a5, a6.
Qed.

Lemma MoreGrofman_step_move_8 (w : World Player) (myold last : Action) :
  same_rounds w ->
  length (history (self w)) = 7%nat ->
  py_index (history (self w)) (-1) = Some myold ->
  py_index (history (opponent w)) (-1) = Some last ->
  MoreGrofman_strategy w =
    (Ok (k86r_table myold (count D (history (opponent w))
                           + int_of_bool (Action_eqb last D))), w).
Proof.
  intros Hs H7 Hmy Hl. rewrite MoreGrofman_unfold.
  unfold same_rounds in Hs. cbn [player Player_HasPlayer] in Hs.
  destruct (length_7 (history (opponent w)) ltac:(congruence))
    as (a0 & a1 & a2 & a3 & a4 & a5 & a6 & Eo).
  unfold len. rewrite H7. change (Z.of_nat 7 + 1) with 8.
  apply k86r_late; [lia|exact Hmy|].
  rewrite Eo in *. rewrite k86r_iprev7_move_8.
  change (py_index [a0; a1; a2; a3; a4; a5; a6] (-1)) with (Some a6) in Hl.
  injection Hl as ->. reflexivity.
Qed.

Lemma MoreGrofman_step_late (w : World Player) (myold : Action) :
  same_rounds w ->
  (8 <= length (history (self w)))%nat ->
  py_index (history (self w)) (-1) = Some myold ->
  MoreGrofman_strategy w =
    (Ok (k86r_table myold (last_eight_defections (history (opponent w)))), w).
Proof.
  intros Hs H8 Hmy. rewrite MoreGrofman_unfold.
  unfold same_rounds in Hs. cbn [player Player_HasPlayer] in Hs.
  apply k86r_late; [unfold len; lia|exact Hmy|].
  rewrite k86r_iprev7_eight_rounds by (unfold len; lia).
  unfold last_eight_defections.
  replace (Z.to_nat (len (history (self w)) + 1 - 9))
    with (length (history (opponent w)) - 8)%nat by (unfold len; lia).
  reflexivity.
Qed.

Lemma MoreGrofman_opening_phases (w : World Player) :
  ((length (history (self w)) < 2)%nat ->
     MoreGrofman_strategy w = (Ok C, w)) /\
  ((2 <= length (history (self w)) <= 6)%nat ->
     MoreGrofman_strategy w =
       (Ok (match py_index (history (opponent w)) (-1) with
            | Some a => a | None => C end), w)).
Proof.
  rewrite MoreGrofman_unfold.
  split; intro H; apply k86r_early; unfold len; lia.
Qed.

(** X13. MoreGrofman's opening, whatever the opponent's history: with
    fewer than two own moves made it returns Cooperate; with two to six
    own moves made it returns the opponent's previous move, or Cooperate
    when the opponent has no move yet.  Nothing is changed. *)
Theorem MoreGrofman_opening (w : World Player) :
  ((length (history (self w)) < 2)%nat ->
     MoreGrofman_strategy w = (Ok C, w)) /\
  ((2 <= length (history (self w)) <= 6)%nat ->
     MoreGrofman_strategy w =
       (Ok (match py_index (history (opponent w)) (-1) with
            | Some a => a | None => C end), w)).
Proof. exact (MoreGrofman_opening_phases w). Qed.

Lemma MoreGrofman_opening_witness :
  MoreGrofman_strategy
    (mkWorld (mkPlayer [C; C; C] 3 0 (Num 200))
             (mkPlayer [C; C; D] 2 1 (Num 200)) (fun _ => 0%Q) 0)
  = (Ok D, mkWorld (mkPlayer [C; C; C] 3 0 (Num 200))
                   (mkPlayer [C; C; D] 2 1 (Num 200)) (fun _ => 0%Q) 0).
Proof.
  refine (proj2 (MoreGrofman_opening
    (mkWorld (mkPlayer [C; C; C] 3 0 (Num 200))
             (mkPlayer [C; C; D] 2 1 (Num 200)) (fun _ => 0%Q) 0)) _).
  simpl. lia.
Defined.

(** X14. MoreGrofman from its ninth move on, both histories holding the
    same number of rounds (at least 8): it returns Defect exactly when
    the opponent's defections among its last EIGHT moves exceed 2 (own
    previous move Cooperate) or 1 (own previous move Defect), and
    Cooperate otherwise; nothing is changed. *)
Theorem MoreGrofman_from_move_9 (w : World Player) (myold : Action) :
  same_rounds w ->
  (8 <= length (history (self w)))%nat ->
  py_index (history (self w)) (-1) = Some myold ->
  MoreGrofman_strategy w =
    (Ok (k86r_table myold (last_eight_defections (history (opponent w)))), w).
Proof. apply MoreGrofman_step_late. Qed.

Lemma MoreGrofman_from_move_9_witness :
  MoreGrofman_strategy
    (mkWorld (mkPlayer [C; C; C; C; C; C; C; C; D] 8 1 (Num 200))
             (mkPlayer [D; D; C; C; C; C; C; C; C] 7 2 (Num 200))
             (fun _ => 0%Q) 0)
  = (Ok C, mkWorld (mkPlayer [C; C; C; C; C; C; C; C; D] 8 1 (Num 200))
                   (mkPlayer [D; D; C; C; C; C; C; C; C] 7 2 (Num 200))
                   (fun _ => 0%Q) 0).
Proof.
  refine (MoreGrofman_from_move_9
    (mkWorld (mkPlayer [C; C; C; C; C; C; C; C; D] 8 1 (Num 200))
             (mkPlayer [D; D; C; C; C; C; C; C; C] 7 2 (Num 200))
             (fun _ => 0%Q) 0) D _ _ _).
  - reflexivity.
  - simpl. lia.
  - reflexivity.
Defined.

(** X15. MoreGrofman at its eighth move, both histories holding seven
    rounds: the first index of the loop is [-1], so the opponent's most
    recent move is counted twice; the table is applied to the
    opponent's defections in the seven rounds plus one more when its
    previous move is Defect. *)
Theorem MoreGrofman_at_move_8 (w : World Player) (myold last : Action) :
  same_rounds w ->
  length (history (self w)) = 7%nat ->
  py_index (history (self w)) (-1) = Some myold ->
  py_index (history (opponent w)) (-1) = Some last ->
  MoreGrofman_strategy w =
    (Ok (k86r_table myold (count D (history (opponent w))
                           + int_of_bool (Action_eqb last D))), w).
Proof. apply MoreGrofman_step_move_8. Qed.

Lemma MoreGrofman_at_move_8_witness :
  MoreGrofman_strategy
    (mkWorld (mkPlayer [C; C; C; C; C; C; C] 7 0 (Num 200))
             (mkPlayer [C; C; C; C; C; D; D] 5 2 (Num 200))
             (fun _ => 0%Q) 0)
  = (Ok D, mkWorld (mkPlayer [C; C; C; C; C; C; C] 7 0 (Num 200))
                   (mkPlayer [C; C; C; C; C; D; D] 5 2 (Num 200))
                   (fun _ => 0%Q) 0).
Proof.
  refine (MoreGrofman_at_move_8
    (mkWorld (mkPlayer [C; C; C; C; C; C; C] 7 0 (Num 200))
             (mkPlayer [C; C; C; C; C; D; D] 5 2 (Num 200))
             (fun _ => 0%Q) 0) C D _ _ _ _).
  - reflexivity.
  - reflexivity.
  - reflexivity.
  - reflexivity.
Defined.

(** The loop of [k86r] ends with a count or with [IndexError], and
    changes nothing. *)
Lemma iprev7_loop_outcome {St : Type} (ioppnt : list Action)
  (idx : list Z) :
  forall (acc : Z) (w : World St),
    (exists z,
       for_each idx
         (fun i iprev7 =>
            x <- getitem ioppnt (i - 1) ;;
            ret (iprev7 + int_of_bool (Action_eqb x D)))
         acc w = (Ok z, w)) \/
    for_each idx
      (fun i iprev7 =>
         x <- getitem ioppnt (i - 1) ;;
         ret (iprev7 + int_of_bool (Action_eqb x D)))
      acc w = (Raise IndexError, w).
Proof.
  induction idx as [|i t IH]; intros acc w.
  - left. now exists acc.
  - cbn [for_each]. unfold bind at 1 3. unfold bind at 1 2.
    unfold getitem.
    destruct (py_index ioppnt (i - 1)) as [x|]; unfold ret at 1 2 3 4;
      unfold raise.
    + apply IH.
    + now right.
Qed.

(** X16. [k86r] returns a move or raises [IndexError], and nothing else:
    its four final tests cover every case, so it never falls off the end
    (never returns [None]), and it never divides. *)
Theorem k86r_returns_move_or_IndexError (jpick : Action) (moven : Z)
  (ioppnt : list Action) (w : World Player) :
  (exists a, fst (k86r jpick moven ioppnt w) = Ok a) \/
  fst (k86r jpick moven ioppnt w) = Raise IndexError.
Proof.
  destruct (Z.le_gt_cases moven 2) as [H2|H2].
  { left. exists C. now rewrite (proj1 (k86r_early jpick moven ioppnt w)). }
  destruct (Z.le_gt_cases moven 7) as [H7|H7].
  { left. exists jpick.
    now rewrite (proj2 (k86r_early jpick moven ioppnt w)). }
  destruct (py_index (history (self w)) (-1)) as [myold|] eqn:Emy.
  - destruct (iprev7_loop_outcome ioppnt
                (py_range (moven - 7 - 1) (moven - 1 + 1)) 0 w)
      as [[z Ez]|Ee].
    + left. exists (k86r_table myold z).
      now rewrite (k86r_late jpick myold moven z ioppnt w H7 Emy Ez).
    + right. unfold k86r. rewrite !(Z.gtb_ltb moven).
      destruct (Z.ltb_spec 2 moven); [|lia].
      destruct (Z.ltb_spec 7 moven); [|lia].
      cbn [negb]. run. rewrite Emy. run.
      unfold k86r_iprev7. cbv zeta. rewrite Ee. reflexivity.
  - right. unfold k86r. rewrite !(Z.gtb_ltb moven).
    destruct (Z.ltb_spec 2 moven); [|lia].
    destruct (Z.ltb_spec 7 moven); [|lia].
    cbn [negb]. run. rewrite Emy. reflexivity.
Qed.

Lemma MoreGrofman_returns (w : World Player) :
  same_rounds w -> exists a, fst (MoreGrofman_strategy w) = Ok a.
Proof.
  intro Hs.
  destruct (Nat.lt_ge_cases (length (history (self w))) 2) as [H2|H2].
  { exists C. now rewrite (proj1 (MoreGrofman_opening_phases w) H2). }
  destruct (Nat.le_gt_cases (length (history (self w))) 6) as [H6|H6].
  { eexists. now rewrite (proj2 (MoreGrofman_opening_phases w) (conj H2 H6)). }
  assert (Hown : history (self w) <> []).
  { intro E. rewrite E in H2. cbn in H2. lia. }
  assert (Hopp : history (opponent w) <> []).
  { unfold same_rounds in Hs. cbn [player Player_HasPlayer] in Hs.
    exact (len_eq_nonempty _ _ Hs Hown). }
  destruct (py_index_last_some _ Hown) as [myold Hmy].
  destruct (py_index_last_some _ Hopp) as [last Hl].
  destruct (Nat.eq_dec (length (history (self w))) 7) as [E7|N7].
  - eexists. now rewrite (MoreGrofman_step_move_8 w myold last Hs E7 Hmy Hl).
  - eexists. rewrite (MoreGrofman_step_late w myold Hs ltac:(lia) Hmy).
    reflexivity.
Qed.

Lemma Tester_returns (w : World Tester) :
  same_rounds w -> exists a, fst (Tester_strategy w) = Ok a.
Proof.
  intro Hs. unfold same_rounds in Hs. cbn [player Tester_HasPlayer] in Hs.
  unfold Tester_strategy. run.
  destruct (history (opponent w)) as [|x t] eqn:Eo; [now exists D|]. run.
  destruct (is_TFT (self w)); [eexists; reflexivity|].
  destruct (py_index_last_some (x :: t) ltac:(discriminate)) as [a Ha].
  rewrite Ha. run.
  destruct (Action_eqb a D); run; [now exists C|].
  destruct (existsb _ _); run; [now exists C|].
  assert (Hown : history (Tester_player (self w)) <> []).
  { intro E. rewrite E in Hs. discriminate. }
  destruct (py_index_last_some _ Hown) as [b Hb]. rewrite Hb. run.
  now exists (flip b).
Qed.

(** X17. When both histories hold the same number of rounds, Tester and
    MoreGrofman return a move: neither the read of the own previous move
    nor the loop over the opponent's history leaves the lists. *)
Theorem Tester_and_MoreGrofman_are_safe (own opp : Player)
  (src : nat -> Q) (n : nat) (flag : bool) :
  length (history own) = length (history opp) ->
  (exists a, fst (Tester_strategy
                    (mkWorld (mkTester own flag) opp src n)) = Ok a) /\
  (exists a, fst (MoreGrofman_strategy (mkWorld own opp src n)) = Ok a).
Proof.
  intro Hlen. split.
  - apply Tester_returns. exact Hlen.
  - apply MoreGrofman_returns. exact Hlen.
Qed.

Lemma Tester_and_MoreGrofman_are_safe_witness :
  exists a,
    fst (MoreGrofman_strategy
           (mkWorld (mkPlayer (repeat C 8) 8 0 (Num 200))
                    (mkPlayer (repeat D 8) 0 8 (Num 200))
                    (fun _ => 0%Q) 0)) = Ok a.
Proof.
  refine (proj2 (Tester_and_MoreGrofman_are_safe
    (mkPlayer (repeat C 8) 8 0 (Num 200))
    (mkPlayer (repeat D 8) 0 8 (Num 200)) (fun _ => 0%Q) 0 false _)).
  reflexivity.
Defined.

Lemma skipn_repeat {A : Type} (a : A) (n k : nat) :
  skipn k (repeat a n) = repeat a (n - k).
Proof.
  revert k. induction n as [|n IH]; intro k.
  - now rewrite skipn_nil.
  - destruct k as [|k]; [reflexivity|]. cbn [repeat skipn]. apply IH.
Qed.

Lemma last_eight_of_repeat (a : Action) (j : nat) :
  (8 <= j)%nat ->
  last_eight_defections (repeat a j) = count D (repeat a 8).
Proof.
  intro H. unfold last_eight_defections.
  rewrite repeat_length, skipn_repeat.
  replace (j - (j - 8))%nat with 8%nat by lia. reflexivity.
Qed.

Lemma py_index_last_repeat {A : Type} (a : A) (j : nat) :
  py_index (repeat a (S j)) (-1) = Some a.
Proof. rewrite repeat_snoc. apply py_index_last. Qed.

(** MoreGrofman's answer when the opponent has played [a] in every round
    so far: it depends only on the number [j] of rounds and on its own
    previous move. *)
Lemma MoreGrofman_constant_opponent_step (a : Action) (j : nat)
  (mv : nat -> Action) (w : World Player) :
  history (self w) = map mv (seq 0 j) ->
  history (opponent w) = repeat a j ->
  MoreGrofman_strategy w =
    (Ok (if (j <? 2)%nat then C
         else if (j <? 7)%nat then a
         else k86r_table (mv (j - 1)%nat)
                (if (j =? 7)%nat
                 then count D (repeat a 7) + int_of_bool (Action_eqb a D)
                 else count D (repeat a 8))), w).
Proof.
  intros Hown Hopp.
  assert (Hlo : length (history (self w)) = j)
    by (rewrite Hown; now rewrite length_map, length_seq).
  assert (Hs : same_rounds w).
  { unfold same_rounds. cbn [player Player_HasPlayer].
    now rewrite Hlo, Hopp, repeat_length. }
  destruct (Nat.ltb_spec j 2) as [H2|H2].
  { apply (proj1 (MoreGrofman_opening_phases w)). lia. }
  destruct (Nat.ltb_spec j 7) as [H7|H7].
  { rewrite (proj2 (MoreGrofman_opening_phases w)) by lia.
    rewrite Hopp. destruct j as [|j]; [lia|].
    now rewrite py_index_last_repeat. }
  assert (Hmy : py_index (history (self w)) (-1) = Some (mv (j - 1)%nat)).
  { rewrite Hown. destruct j as [|j]; [lia|].
    rewrite seq_S, map_app. cbn [map Nat.add].
    replace (S j - 1)%nat with j by lia. apply py_index_last. }
  assert (Hl : py_index (history (opponent w)) (-1) = Some a).
  { rewrite Hopp. destruct j as [|j]; [lia|]. apply py_index_last_repeat. }
  destruct (Nat.eqb_spec j 7) as [E7|N7].
  - rewrite (MoreGrofman_step_move_8 w _ a Hs ltac:(lia) Hmy Hl).
    rewrite Hopp, E7. reflexivity.
  - rewrite (MoreGrofman_step_late w _ Hs ltac:(lia) Hmy).
    rewrite Hopp, last_eight_of_repeat by lia. reflexivity.
Qed.

Lemma constant_opponent_next (a : Action) (mv : nat -> Action) (j : nat)
  (w : World Player) :
  history (self w) = map mv (seq 0 j) /\ history (opponent w) = repeat a j ->
  history (self (engine_round (mv j) a w)) = map mv (seq 0 (S j)) /\
  history (opponent (engine_round (mv j) a w)) = repeat a (S j).
Proof.
  intros [Hown Hopp]. rewrite seq_S, map_app, repeat_snoc. cbn.
  now rewrite Hown, Hopp.
Qed.

(** X18. MoreGrofman against an opponent who always cooperates, from the
    start of a match: it cooperates in every round. *)
Theorem MoreGrofman_against_cooperator (n : nat) (l1 l2 : number)
  (src : nat -> Q) (k : nat) :
  fst (play MoreGrofman_strategy (repeat C n)
         (mkWorld (fresh_player l1) (fresh_player l2) src k))
    = Ok (repeat C n).
Proof.
  destruct (play_invariant MoreGrofman_strategy
              (fun j w => history (self w) = map (fun _ => C) (seq 0 j) /\
                          history (opponent w) = repeat C j)
              (fun _ => C) (fun _ => C)) with
    (n := n) (k := 0%nat)
    (w := mkWorld (fresh_player l1) (fresh_player l2) src k)
    as (w' & E & _).
  - intros j w [Hown Hopp].
    rewrite (MoreGrofman_constant_opponent_step C j (fun _ => C) w Hown Hopp).
    destruct (j <? 2)%nat; [reflexivity|].
    destruct (j <? 7)%nat; [reflexivity|].
    destruct (j =? 7)%nat; reflexivity.
  - intros j w Hw. exact (constant_opponent_next C (fun _ => C) j w Hw).
  - split; reflexivity.
  - rewrite !map_const_seq in E. now rewrite E.
Qed.

(** X19. MoreGrofman against an opponent who always defects, from the
    start of a match: Cooperate in the first two rounds, Defect in every
    round after them. *)
Theorem MoreGrofman_against_defector (n : nat) (l1 l2 : number)
  (src : nat -> Q) (k : nat) :
  fst (play MoreGrofman_strategy (repeat D (S (S n)))
         (mkWorld (fresh_player l1) (fresh_player l2) src k))
    = Ok (C :: C :: repeat D n).
Proof.
  set (mv := fun j : nat => if (j <? 2)%nat then C else D).
  destruct (play_invariant MoreGrofman_strategy
              (fun j w => history (self w) = map mv (seq 0 j) /\
                          history (opponent w) = repeat D j)
              mv (fun _ => D)) with
    (n := S (S n)) (k := 0%nat)
    (w := mkWorld (fresh_player l1) (fresh_player l2) src k)
    as (w' & E & _).
  - intros j w [Hown Hopp].
    rewrite (MoreGrofman_constant_opponent_step D j mv w Hown Hopp).
    unfold mv at 2.
    destruct (Nat.ltb_spec j 2) as [H2|H2]; [reflexivity|].
    destruct (Nat.ltb_spec j 7) as [H7|H7]; [reflexivity|].
    assert (Hm : mv (j - 1)%nat = D).
    { unfold mv. destruct (Nat.ltb_spec (j - 1) 2); [lia|reflexivity]. }
    rewrite Hm. destruct (j =? 7)%nat; reflexivity.
  - intros j w Hw. exact (constant_opponent_next D mv j w Hw).
  - split; reflexivity.
  - rewrite map_const_seq in E. rewrite E. cbn [fst seq map]. f_equal.
    change (mv 0%nat) with C. change (mv 1%nat) with C. do 2 f_equal.
    rewrite <- (map_const_seq D n 2).
    apply map_ext_in. intros i Hi. apply in_seq in Hi.
    unfold mv. destruct (Nat.ltb_spec i 2); [lia|reflexivity].
Qed.



(* ================================================================== *)
(** ** Binary64 arithmetic: rounding is monotone *)

(** *** Rounding to an integer *)

Lemma round_half_even_comp (a b : Q) :
  (a == b)%Q -> round_half_even a = round_half_even b.
Proof.
  intro E. unfold round_half_even.
  rewrite (Qfloor_comp a b E).
  assert (E2 : (a - inject_Z (Qfloor b) == b - inject_Z (Qfloor b))%Q)
    by (now rewrite E).
  now rewrite (Qcompare_comp _ _ E2 (1 # 2) (1 # 2) (Qeq_refl _)).
Qed.

Lemma round_half_even_bounds (a : Q) :
  Qfloor a <= round_half_even a <= Qfloor a + 1.
Proof.
  unfold round_half_even.
  destruct (Qcompare _ _); [destruct (Z.even _)| |]; lia.
Qed.

Lemma round_half_even_Z (k : Z) : round_half_even (inject_Z k) = k.
Proof.
  unfold round_half_even. rewrite Qfloor_Z.
  assert (E : (inject_Z k - inject_Z k == 0)%Q) by ring.
  rewrite (Qcompare_comp _ _ E (1 # 2) (1 # 2) (Qeq_refl _)).
  reflexivity.
Qed.

Lemma round_half_even_mono (a b : Q) :
  (a <= b)%Q -> round_half_even a <= round_half_even b.
Proof.
  intro H. pose proof (Qfloor_resp_le a b H) as Hf.
  pose proof (round_half_even_bounds a) as Ba.
  pose proof (round_half_even_bounds b) as Bb.
  destruct (Z.eq_dec (Qfloor a) (Qfloor b)) as [E|N]; [|lia].
  unfold round_half_even. rewrite <- E.
  assert (Hd : (a - inject_Z (Qfloor a) <= b - inject_Z (Qfloor a))%Q) by lra.
  set (da := (a - inject_Z (Qfloor a))%Q) in *.
  set (db := (b - inject_Z (Qfloor a))%Q) in *.
  destruct (Qcompare da (1 # 2)) eqn:Ca;
    destruct (Qcompare db (1 # 2)) eqn:Cb;
    try (apply <- Qeq_alt in Ca); try (apply <- Qeq_alt in Cb);
    try (apply <- Qlt_alt in Ca); try (apply <- Qlt_alt in Cb);
    try (apply <- Qgt_alt in Ca); try (apply <- Qgt_alt in Cb);
    try (destruct (Z.even (Qfloor a))); try lia; exfalso; lra.
Qed.

(** *** The doubles around a number *)

Lemma binary64_exponent_nonneg (X : Q) : 0 <= binary64_exponent X.
Proof. unfold binary64_exponent. lia. Qed.

Lemma binary64_exponent_mono (X Y : Q) :
  (X <= Y)%Q -> binary64_exponent X <= binary64_exponent Y.
Proof.
  intro H. unfold binary64_exponent.
  pose proof (Z.log2_le_mono _ _ (Qfloor_resp_le X Y H)). lia.
Qed.

Lemma inject_Z_pow_pos (e : Z) : 0 <= e -> (0 < inject_Z (2 ^ e))%Q.
Proof.
  intro H. change 0%Q with (inject_Z 0). rewrite <- Zlt_Qlt.
  apply Z.pow_pos_nonneg; lia.
Qed.

Lemma grid_upper (X : Q) :
  (0 <= X)%Q -> grid X <= 2 ^ (binary64_exponent X + 53).
Proof.
  intro H0. unfold grid. cbv zeta.
  pose proof (binary64_exponent_nonneg X) as He.
  set (e := binary64_exponent X) in *.
  assert (Hf : Qfloor X + 1 <= 2 ^ (e + 53)).
  { destruct (Z.le_gt_cases (Qfloor X) 0) as [Hz|Hp].
    - assert (0 < 2 ^ (e + 53)) by (apply Z.pow_pos_nonneg; lia).
      lia.
    - assert (Z.log2 (Qfloor X) < e + 53)
        by (unfold e, binary64_exponent; lia).
      apply Z.log2_lt_pow2 in H; lia. }
  assert (HX : (X <= inject_Z (2 ^ (e + 53)))%Q).
  { apply Qle_trans with (inject_Z (Qfloor X + 1)).
    - apply Qlt_le_weak, Qlt_floor.
    - now rewrite <- Zle_Qle. }
  assert (Hq : (X / inject_Z (2 ^ e) <= inject_Z (2 ^ 53))%Q).
  { apply Qle_shift_div_r; [now apply inject_Z_pow_pos|].
    rewrite <- inject_Z_mult, <- Z.pow_add_r by lia.
    now rewrite (Z.add_comm 53 e). }
  pose proof (round_half_even_mono _ _ Hq) as Hr.
  rewrite round_half_even_Z in Hr.
  rewrite (Z.add_comm e 53), Z.pow_add_r by lia.
  apply Z.mul_le_mono_nonneg_r; [|exact Hr].
  apply Z.pow_nonneg; lia.
Qed.

Lemma grid_lower (Y : Q) :
  0 < binary64_exponent Y -> 2 ^ (binary64_exponent Y + 52) <= grid Y.
Proof.
  intro Hpos. unfold grid. cbv zeta.
  assert (He : binary64_exponent Y = Z.log2 (Qfloor Y) - 52)
    by (unfold binary64_exponent in *; lia).
  set (e := binary64_exponent Y) in *.
  assert (Hfpos : 0 < Qfloor Y).
  { destruct (Z.le_gt_cases (Qfloor Y) 0) as [Hz|Hp]; [|exact Hp].
    rewrite (Z.log2_nonpos _ Hz) in He. lia. }
  assert (Hf : 2 ^ (e + 52) <= Qfloor Y).
  { replace (e + 52) with (Z.log2 (Qfloor Y)) by lia.
    now apply Z.log2_spec. }
  assert (HY : (inject_Z (2 ^ (e + 52)) <= Y)%Q).
  { apply Qle_trans with (inject_Z (Qfloor Y)).
    - now rewrite <- Zle_Qle.
    - apply Qfloor_le. }
  assert (Hq : (inject_Z (2 ^ 52) <= Y / inject_Z (2 ^ e))%Q).
  { apply Qle_shift_div_l; [apply inject_Z_pow_pos; lia|].
    rewrite <- inject_Z_mult, <- Z.pow_add_r by lia.
    now rewrite (Z.add_comm 52 e). }
  pose proof (round_half_even_mono _ _ Hq) as Hr.
  rewrite round_half_even_Z in Hr.
  rewrite (Z.add_comm e 52), Z.pow_add_r by lia.
  apply Z.mul_le_mono_nonneg_r; [|exact Hr].
  apply Z.pow_nonneg; lia.
Qed.

Lemma grid_mono (X Y : Q) :
  (0 <= X)%Q -> (X <= Y)%Q -> grid X <= grid Y.
Proof.
  intros H0 H.
  pose proof (binary64_exponent_mono X Y H) as He.
  pose proof (binary64_exponent_nonneg X) as HeX.
  destruct (Z.eq_dec (binary64_exponent X) (binary64_exponent Y)) as [E|N].
  - unfold grid. cbv zeta. rewrite <- E.
    apply Z.mul_le_mono_nonneg_r; [apply Z.pow_nonneg; lia|].
    apply round_half_even_mono.
    apply Qle_shift_div_l; [now apply inject_Z_pow_pos|].
    unfold Qdiv. rewrite <- Qmult_assoc, (Qmult_comm (/ _)), Qmult_inv_r.
    + now rewrite Qmult_1_r.
    + intro Ez. pose proof (inject_Z_pow_pos _ HeX) as Hp.
      rewrite Ez in Hp. now apply Qlt_irrefl in Hp.
  - apply Z.le_trans with (2 ^ (binary64_exponent X + 53)).
    + now apply grid_upper.
    + apply Z.le_trans with (2 ^ (binary64_exponent Y + 52)).
      * apply Z.pow_le_mono_r; lia.
      * apply grid_lower. lia.
Qed.

Lemma grid_comp (X Y : Q) : (X == Y)%Q -> grid X = grid Y.
Proof.
  intro E. unfold grid, binary64_exponent. cbv zeta.
  rewrite (Qfloor_comp X Y E).
  f_equal. apply round_half_even_comp. now rewrite E.
Qed.

Lemma grid_nonneg (X : Q) : (0 <= X)%Q -> 0 <= grid X.
Proof.
  intro H. unfold grid. cbv zeta.
  pose proof (binary64_exponent_nonneg X) as He.
  apply Z.mul_nonneg_nonneg; [|apply Z.pow_nonneg; lia].
  assert (Hq : (inject_Z 0 <= X / inject_Z (2 ^ binary64_exponent X))%Q).
  { apply Qle_shift_div_l; [now apply inject_Z_pow_pos|].
    now rewrite Qmult_0_l. }
  pose proof (round_half_even_mono _ _ Hq) as Hr.
  now rewrite round_half_even_Z in Hr.
Qed.

Lemma fl_nonneg_grid (x : Q) :
  fl_nonneg x
  = (inject_Z (grid (x * inject_Z binary64_scale)) / inject_Z binary64_scale)%Q.
Proof. reflexivity. Qed.

Lemma scale_pos : (0 < inject_Z binary64_scale)%Q.
Proof. apply (inject_Z_pow_pos 1074). lia. Qed.

Lemma fl_nonneg_mono (x y : Q) :
  (0 <= x)%Q -> (x <= y)%Q -> (fl_nonneg x <= fl_nonneg y)%Q.
Proof.
  intros H0 H. rewrite !fl_nonneg_grid.
  pose proof scale_pos as Hs.
  assert (Hg : grid (x * inject_Z binary64_scale)
               <= grid (y * inject_Z binary64_scale)).
  { apply grid_mono.
    - apply Qmult_le_0_compat; [exact H0|now apply Qlt_le_weak].
    - apply Qmult_le_compat_r; [exact H|now apply Qlt_le_weak]. }
  apply Qle_shift_div_l; [exact Hs|].
  unfold Qdiv. rewrite <- Qmult_assoc, (Qmult_comm (/ _)), Qmult_inv_r.
  - rewrite Qmult_1_r. now rewrite <- Zle_Qle.
  - intro Ez. rewrite Ez in Hs. now apply Qlt_irrefl in Hs.
Qed.

Lemma fl_nonneg_nonneg (x : Q) : (0 <= x)%Q -> (0 <= fl_nonneg x)%Q.
Proof.
  intro H. rewrite fl_nonneg_grid.
  apply Qle_shift_div_l; [exact scale_pos|]. rewrite Qmult_0_l.
  change 0%Q with (inject_Z 0). rewrite <- Zle_Qle.
  apply grid_nonneg.
  apply Qmult_le_0_compat; [exact H|apply Qlt_le_weak, scale_pos].
Qed.

Lemma fl_nonneg_comp (x y : Q) : (x == y)%Q -> fl_nonneg x = fl_nonneg y.
Proof.
  intro E. rewrite !fl_nonneg_grid.
  rewrite (grid_comp (x * inject_Z binary64_scale)
                     (y * inject_Z binary64_scale)); [reflexivity|].
  now rewrite E.
Qed.

Lemma Qlt_bool_comp (x y z : Q) : (x == y)%Q -> Qlt_bool x z = Qlt_bool y z.
Proof.
  intro E. destruct (Qlt_bool y z) eqn:Ey.
  - apply Qlt_bool_iff. apply Qlt_bool_iff in Ey. now rewrite E.
  - apply Qlt_bool_false_iff. apply Qlt_bool_false_iff in Ey. now rewrite E.
Qed.

Lemma fl_comp (x y : Q) : (x == y)%Q -> fl x = fl y.
Proof.
  intro E. unfold fl. rewrite (Qlt_bool_comp x y 0 E).
  rewrite (fl_nonneg_comp x y E).
  rewrite (fl_nonneg_comp (- x) (- y)) by (now rewrite E).
  reflexivity.
Qed.

Lemma fl_sign (x : Q) :
  ((0 <= x)%Q -> (0 <= fl x)%Q) /\ ((x <= 0)%Q -> (fl x <= 0)%Q).
Proof.
  unfold fl. destruct (Qlt_bool x 0) eqn:E; rewrite Qred_correct.
  - apply Qlt_bool_iff in E. split; intro H.
    + exfalso. lra.
    + assert (0 <= fl_nonneg (- x))%Q by (apply fl_nonneg_nonneg; lra). lra.
  - apply Qlt_bool_false_iff in E. split; intro H.
    + now apply fl_nonneg_nonneg.
    + assert (Ex : (x == 0)%Q) by lra.
      rewrite (fl_nonneg_comp x 0 Ex). vm_compute. discriminate.
Qed.

Lemma fl_mono (x y : Q) : (x <= y)%Q -> (fl x <= fl y)%Q.
Proof.
  intro H. destruct (Qlt_le_dec x 0) as [Hx|Hx];
    destruct (Qlt_le_dec y 0) as [Hy|Hy].
  - unfold fl.
    rewrite (proj2 (Qlt_bool_iff x 0) Hx), (proj2 (Qlt_bool_iff y 0) Hy).
    rewrite !Qred_correct.
    assert (fl_nonneg (- y) <= fl_nonneg (- x))%Q
      by (apply fl_nonneg_mono; lra).
    lra.
  - apply Qle_trans with 0%Q.
    + apply (proj2 (fl_sign x)). lra.
    + now apply (proj1 (fl_sign y)).
  - exfalso. lra.
  - unfold fl.
    rewrite (proj2 (Qlt_bool_false_iff x 0) Hx),
            (proj2 (Qlt_bool_false_iff y 0) Hy).
    rewrite !Qred_correct. now apply fl_nonneg_mono.
Qed.

(* ================================================================== *)
(** ** Binary64 arithmetic: values and overflow *)

(** The doubles that the strategies meet, as CPython prints them with
    [fractions.Fraction]: 0.4, 0.8 = 4/5, 1 - 0.4 and 2/3; the ends of
    the scale: the largest double survives, the midpoint above it
    overflows, half the smallest subnormal rounds to zero. *)
Lemma binary64_values :
  literal_0_4 = 3602879701896397 # 9007199254740992 /\
  fl (4 # 5) = 3602879701896397 # 4503599627370496 /\
  sub_binary64 1 literal_0_4 = 5404319552844595 # 9007199254740992 /\
  fl (2 # 3) = 6004799503160661 # 9007199254740992 /\
  fl 1 = 1%Q /\ fl 0 = 0%Q /\
  fl (inject_Z (2 ^ 53 + 1)) = inject_Z (2 ^ 53) /\
  fl (inject_Z (2 ^ 1024 - 2 ^ 971)) = inject_Z (2 ^ 1024 - 2 ^ 971) /\
  overflows (inject_Z (2 ^ 1024 - 2 ^ 971)) = false /\
  overflows (inject_Z (2 ^ 1024 - 2 ^ 970)) = true /\
  fl (1 # (2 ^ 1075)) = 0%Q.
Proof. repeat split; vm_compute; reflexivity. Qed.

Lemma overflows_false (x c : Q) :
  (Qabs x <= c)%Q -> (c < binary64_overflow_bound)%Q -> overflows x = false.
Proof.
  intros H1 H2. unfold overflows.
  destruct (Qle_bool _ _) eqn:E; [|reflexivity].
  apply Qle_bool_iff in E. exfalso.
  apply (Qlt_irrefl c). apply Qlt_le_trans with binary64_overflow_bound;
    [exact H2|]. now apply Qle_trans with (Qabs x).
Qed.

Lemma overflows_mono (x y : Q) :
  (Qabs x <= Qabs y)%Q -> overflows y = false -> overflows x = false.
Proof.
  intros H Hy. unfold overflows in *.
  destruct (Qle_bool binary64_overflow_bound (Qabs x)) eqn:E; [|reflexivity].
  apply Qle_bool_iff in E.
  assert (Hb : Qle_bool binary64_overflow_bound (Qabs y) = true)
    by (apply Qle_bool_iff; now apply Qle_trans with (Qabs x)).
  congruence.
Qed.

(** A ratio of a counter to a history length, the counter between 0 and
    the length, does not overflow. *)
Lemma ratio_does_not_overflow (d n : Z) :
  0 <= d <= n -> 0 < n -> overflows (inject_Z d / inject_Z n) = false.
Proof.
  intros [Hd Hdn] Hn.
  assert (Hnq : (0 < inject_Z n)%Q)
    by (change 0%Q with (inject_Z 0); now rewrite <- Zlt_Qlt).
  assert (H0 : (0 <= inject_Z d / inject_Z n)%Q).
  { apply Qle_shift_div_l; [exact Hnq|]. rewrite Qmult_0_l.
    change 0%Q with (inject_Z 0). now rewrite <- Zle_Qle. }
  apply overflows_false with 1%Q; [|vm_compute; reflexivity].
  rewrite Qabs_pos by exact H0.
  apply Qle_shift_div_r; [exact Hnq|]. rewrite Qmult_1_l.
  now rewrite <- Zle_Qle.
Qed.

(** The two thresholds of Champion do not overflow for a match length of
    magnitude at most [2 ^ 1024]. *)
Lemma thresholds_do_not_overflow (n : Z) :
  Z.abs n <= 2 ^ 1024 ->
  overflows (inject_Z n / inject_Z 20) = false /\
  overflows (inject_Z n * inject_Z 5 / inject_Z 40) = false.
Proof.
  intro Hn.
  assert (Hc : (inject_Z (2 * 2 ^ 1020) < binary64_overflow_bound)%Q)
    by (vm_compute; reflexivity).
  assert (E : 2 ^ 1024 = 16 * 2 ^ 1020) by (vm_compute; reflexivity).
  assert (Hp : 0 < 2 ^ 1020) by (vm_compute; reflexivity).
  rewrite E in Hn. clear E.
  set (B := 2 ^ 1020) in *. clearbody B.
  split; apply overflows_false with (inject_Z (2 * B)); try exact Hc;
    apply Qabs_Qle_condition;
    unfold Qle, Qdiv, Qmult, Qinv, Qopp, inject_Z; cbn -[Z.mul]; lia.
Qed.

(** The primitives of the binary64 layer leave the world as it is. *)
Lemma true_div_binary64_state {St : Type} (a b : Z) (w : World St) :
  true_div_binary64 a b w = (fst (true_div_binary64 a b w), w).
Proof.
  unfold true_div_binary64.
  destruct (b =? 0); [reflexivity|]. now destruct (overflows _).
Qed.

Lemma num_div_binary64_state {St : Type} (x : number) (k : positive)
  (w : World St) :
  num_div_binary64 x k w = (fst (num_div_binary64 x k w), w).
Proof.
  unfold num_div_binary64. destruct x as [q|]; [|reflexivity].
  now destruct (overflows _).
Qed.

(** A round at or past [expected_length * 5 / 40] (and past round 0) is
    also at or past [expected_length / 20], and the smaller threshold
    does not overflow when the larger does not. *)
Lemma final_phase_past_first_binary64 {St : Type} (cr : Z) (x t2 : number)
  (w : World St) :
  1 <= cr ->
  fst (num_div_binary64 (num_mul x 5) 40 w) = Ok t2 ->
  int_lt cr t2 = false ->
  exists t1,
    fst (num_div_binary64 x 20 w) = Ok t1 /\ int_lt cr t1 = false.
Proof.
  intros Hcr Ht2 Hlt. destruct x as [q|].
  2:{ cbn in Ht2. injection Ht2 as <-. discriminate. }
  cbn [num_mul num_div_binary64] in *.
  destruct (overflows (q * inject_Z 5 / inject_Z 40)) eqn:Eo;
    [discriminate|].
  cbn [fst ret] in Ht2. unfold ret in Ht2. cbn [fst] in Ht2.
  injection Ht2 as <-. cbn [int_lt] in Hlt.
  apply Qlt_bool_false_iff in Hlt.
  assert (Hab : (Qabs (q / inject_Z 20)
                 <= Qabs (q * inject_Z 5 / inject_Z 40))%Q).
  { assert (E : (q * inject_Z 5 / inject_Z 40 == q * (1 # 8))%Q)
      by (unfold Qdiv; change (/ inject_Z 40)%Q with (1 # 40)%Q;
          change (inject_Z 5) with (5 # 1)%Q; ring).
    assert (E' : (q / inject_Z 20 == q * (1 # 20))%Q)
      by (unfold Qdiv; change (/ inject_Z 20)%Q with (1 # 20)%Q; ring).
    rewrite E, E', !Qabs_Qmult.
    change (Qabs (1 # 8)) with (1 # 8)%Q.
    change (Qabs (1 # 20)) with (1 # 20)%Q.
    pose proof (Qabs_nonneg q). lra. }
  rewrite (overflows_mono _ _ Hab Eo).
  eexists. split; [reflexivity|]. cbn [int_lt].
  apply Qlt_bool_false_iff.
  pose proof (inject_Z_ge_1 cr Hcr) as H1.
  destruct (Qlt_le_dec q 0) as [Hq|Hq].
  - apply Qle_trans with 0%Q; [|lra].
    apply (proj2 (fl_sign _)).
    unfold Qdiv. change (/ inject_Z 20)%Q with (1 # 20)%Q. lra.
  - apply Qle_trans with (fl (q * inject_Z 5 / inject_Z 40)); [|exact Hlt].
    apply fl_mono.
    unfold Qdiv. change (/ inject_Z 20)%Q with (1 # 20)%Q.
    change (/ inject_Z 40)%Q with (1 # 40)%Q.
    change (inject_Z 5) with (5 # 1)%Q. lra.
Qed.

(* ================================================================== *)
(** ** Champion and Eatherley on binary64 arithmetic *)

(** A division that returns has a non-empty history as divisor. *)
Lemma true_div_binary64_ok_nonempty {St A : Type} (d : Z) (l : list A)
  (w : World St) (x : Q) :
  fst (true_div_binary64 d (len l) w) = Ok x -> l <> [].
Proof.
  intros H E. subst l. discriminate H.
Qed.

(** C4. Champion in the final phase (round index at least 1 and at least
    [expected_length * 5 / 40], of value [next_phase]): with
    [defection_prop] the value of [opponent.defections /
    len(opponent.history)] and [r] the next value of the random source,
    it returns Defect if and only if the opponent's previous move was
    Defect and [defection_prop >= max(0.4, r)]; in all other cases it
    returns Cooperate.  The divisions and [0.4] are binary64. *)
Theorem Champion_final_phase_binary64 (w : World Player)
  (next_phase : number) (defection_prop : Q) :
  let current_round := len (history (self w)) in
  let opp := opponent w in
  let r := random_source w (random_drawn w) in
  let defect :=
    py_index (history opp) (-1) = Some D /\
    (py_max literal_0_4 r <= defection_prop)%Q in
  1 <= current_round ->
  fst (num_div_binary64 (num_mul (match_length (self w)) 5) 40 w)
    = Ok next_phase ->
  int_lt current_round next_phase = false ->
  fst (true_div_binary64 (defections opp) (len (history opp)) w)
    = Ok defection_prop ->
  (fst (Champion_strategy_binary64 w) = Ok D <-> defect) /\
  (~ defect -> fst (Champion_strategy_binary64 w) = Ok C).
Proof.
  cbv zeta. intros Hcr Ht2 Hlt Hdiv.
  destruct (final_phase_past_first_binary64 _ _ _ w Hcr Ht2 Hlt)
    as (t1 & Ht1 & Hlt1).
  pose proof (true_div_binary64_ok_nonempty _ _ _ _ Hdiv) as Hne.
  destruct (py_index_last_some _ Hne) as [a Ha].
  unfold Champion_strategy_binary64. run.
  destruct (len (history (self w)) =? 0) eqn:E0;
    [apply Z.eqb_eq in E0; lia|].
  run. rewrite num_div_binary64_state, Ht1. run. rewrite Hlt1. run.
  rewrite num_div_binary64_state, Ht2. run. rewrite Hlt. run.
  rewrite true_div_binary64_state, Hdiv. run. rewrite Ha. run.
  destruct a; cbn [Action_eqb]; run.
  - split; [split; [discriminate|intros [Hd _]; discriminate]|reflexivity].
  - destruct (Qle_bool _ _) eqn:Eq; cbn [fst].
    + apply Qle_bool_iff in Eq. split; [tauto|]. intro Hn. exfalso. tauto.
    + split; [|reflexivity]. split; [discriminate|].
      intros [_ Hle]. apply Qle_bool_iff in Hle. congruence.
Qed.

(** The opponent has defected in four rounds of five and the draw is the
    double 0.8, which lies above 4/5: the quotient is rounded to that
    double, and Champion defects. *)
Lemma Champion_final_phase_binary64_witness :
  fst (Champion_strategy_binary64
         (mkWorld (mkPlayer [C; C; C; C; C] 5 0 (Num 8))
                  (mkPlayer [C; D; D; D; D] 1 4 (Num 8))
                  (fun _ => (3602879701896397 # 4503599627370496)%Q) 0))
  = Ok D.
Proof.
  refine (proj2 (proj1 (Champion_final_phase_binary64
    (mkWorld (mkPlayer [C; C; C; C; C] 5 0 (Num 8))
             (mkPlayer [C; D; D; D; D] 1 4 (Num 8))
             (fun _ => (3602879701896397 # 4503599627370496)%Q) 0)
    (Num 1) (3602879701896397 # 4503599627370496) _ _ _ _)) _).
  - vm_compute. discriminate.
  - vm_compute. reflexivity.
  - reflexivity.
  - vm_compute. reflexivity.
  - split; [reflexivity|]. vm_compute. discriminate.
Defined.

(** C5. Eatherley on a non-empty opponent history: if the opponent's
    previous move was Cooperate it returns Cooperate and draws nothing;
    otherwise it returns [random_choice(1 - defection_prop)] with
    [defection_prop] the value of [opponent.defections /
    len(opponent.history)], which is Cooperate exactly when the draw [r]
    satisfies [r < 1 - defection_prop].  Hence against a history made of
    Defects only (with the defection counter the engine keeps and a draw
    in [0, 1)) it returns Defect whatever the draw.  The division and
    the subtraction are binary64. *)
Theorem Eatherley_reciprocates_or_draws_binary64 (w : World Player) :
  let opp := opponent w in
  let r := random_source w (random_drawn w) in
  history opp <> [] ->
  (py_index (history opp) (-1) = Some C ->
     Eatherley_strategy_binary64 w = (Ok C, w)) /\
  (py_index (history opp) (-1) = Some D ->
   forall defection_prop,
     fst (true_div_binary64 (defections opp) (len (history opp)) w)
       = Ok defection_prop ->
     Eatherley_strategy_binary64 w
       = random_choice (sub_binary64 1 defection_prop) w /\
     (fst (Eatherley_strategy_binary64 w) = Ok C
        <-> (r < sub_binary64 1 defection_prop)%Q) /\
     (~ (r < sub_binary64 1 defection_prop)%Q ->
        fst (Eatherley_strategy_binary64 w) = Ok D)) /\
  ((forall a, In a (history opp) -> a = D) ->
     defections opp = count D (history opp) ->
     (0 <= r)%Q ->
     fst (Eatherley_strategy_binary64 w) = Ok D).
Proof.
  cbv zeta. intro Hne.
  assert (E0 : (len (history (opponent w)) =? 0) = false).
  { apply Z.eqb_neq. rewrite len_zero_iff. exact Hne. }
  assert (HD : py_index (history (opponent w)) (-1) = Some D ->
     forall x,
       fst (true_div_binary64 (defections (opponent w))
              (len (history (opponent w))) w) = Ok x ->
       Eatherley_strategy_binary64 w = random_choice (sub_binary64 1 x) w).
  { intros Hl x Hx. unfold Eatherley_strategy_binary64. run.
    rewrite E0. run. rewrite Hl. cbn [Action_eqb]. run.
    rewrite true_div_binary64_state, Hx. reflexivity. }
  assert (HR : forall p : Q,
     (fst (random_choice p w) = Ok C
        <-> (random_source w (random_drawn w) < p)%Q) /\
     (~ (random_source w (random_drawn w) < p)%Q ->
        fst (random_choice p w) = @Ok Action D)).
  { intro p. run.
    destruct (Qlt_bool (random_source w (random_drawn w)) p) eqn:E;
      cbn [fst].
    - apply Qlt_bool_iff in E. split; [tauto|]. intro Hn. contradiction.
    - split; [|reflexivity]. split; [discriminate|].
      intro Hlt. apply Qlt_bool_iff in Hlt. congruence. }
  split; [|split].
  - intro Hl. unfold Eatherley_strategy_binary64. run. rewrite E0. run.
    rewrite Hl. reflexivity.
  - intros Hl x Hx. rewrite (HD Hl x Hx).
    split; [reflexivity|]. apply HR.
  - intros Hall Hcnt Hr.
    destruct (nonempty_snoc _ Hne) as [h [a Eh]].
    assert (Ha : a = D).
    { apply Hall. rewrite Eh. apply in_or_app. right. now left. }
    subst a.
    assert (Hl : py_index (history (opponent w)) (-1) = Some D)
      by (rewrite Eh; apply py_index_last).
    assert (Hn : len (history (opponent w)) <> 0)
      by (rewrite len_zero_iff; exact Hne).
    pose proof (len_nonneg (history (opponent w))) as Hn0.
    assert (Hx : fst (true_div_binary64 (defections (opponent w))
                        (len (history (opponent w))) w) = Ok 1%Q).
    { rewrite Hcnt, (count_all D _ Hall). unfold true_div_binary64.
      rewrite E0, ratio_does_not_overflow by lia.
      cbn [fst ret]. unfold ret. cbn [fst].
      rewrite (fl_comp _ 1 (Qdiv_same _ Hn)). reflexivity. }
    rewrite (HD Hl 1%Q Hx). apply HR.
    change (sub_binary64 1 1) with 0%Q.
    intro Hlt. apply (Qlt_not_le _ _ Hlt). exact Hr.
Qed.

(** The opponent has defected in two rounds of five and the draw is the
    double [1 - 0.4], which lies below 3/5: Eatherley defects. *)
Lemma Eatherley_reciprocates_or_draws_binary64_witness :
  fst (Eatherley_strategy_binary64
         (mkWorld (mkPlayer [C; C; C; C; C] 5 0 (Num 200))
                  (mkPlayer [C; C; C; D; D] 3 2 (Num 200))
                  (fun _ => (5404319552844595 # 9007199254740992)%Q) 0))
  = Ok D.
Proof.
  refine (proj2 (proj2 (proj1 (proj2
    (Eatherley_reciprocates_or_draws_binary64
       (mkWorld (mkPlayer [C; C; C; C; C] 5 0 (Num 200))
                (mkPlayer [C; C; C; D; D] 3 2 (Num 200))
                (fun _ => (5404319552844595 # 9007199254740992)%Q) 0) _))
    _ literal_0_4 _)) _).
  - simpl. discriminate.
  - reflexivity.
  - vm_compute. reflexivity.
  - vm_compute. discriminate.
Defined.

(* ================================================================== *)
(** ** Errors of the strategies that divide, on binary64 arithmetic *)

Lemma num_div_binary64_error {St : Type} (x : number) (k : positive)
  (w : World St) (e : exn) :
  fst (num_div_binary64 x k w) = Raise e -> e = OverflowError.
Proof.
  unfold num_div_binary64. destruct x as [q|]; [|discriminate].
  destruct (overflows _); [|discriminate].
  intro H. now injection H as <-.
Qed.

Lemma true_div_binary64_error {St : Type} (a b : Z) (w : World St)
  (e : exn) :
  b <> 0 -> fst (true_div_binary64 a b w) = Raise e -> e = OverflowError.
Proof.
  intro Hb. unfold true_div_binary64.
  destruct (Z.eqb_spec b 0) as [E|_]; [contradiction|].
  destruct (overflows _); [|discriminate].
  intro H. now injection H as <-.
Qed.

Lemma true_div_binary64_ratio {St : Type} (d n : Z) (w : World St) :
  0 <= d <= n -> n <> 0 ->
  fst (true_div_binary64 d n w) = Ok (fl (inject_Z d / inject_Z n)).
Proof.
  intros Hd Hn. unfold true_div_binary64.
  destruct (Z.eqb_spec n 0) as [E|_]; [contradiction|].
  now rewrite ratio_does_not_overflow by lia.
Qed.

Lemma thresholds_return {St : Type} (x : number) (w : World St) :
  representable_length x ->
  (exists t, fst (num_div_binary64 x 20 w) = Ok t) /\
  (exists t, fst (num_div_binary64 (num_mul x 5) 40 w) = Ok t).
Proof.
  intros [->|(n & -> & Hn)].
  - split; now exists Inf.
  - destruct (thresholds_do_not_overflow n Hn) as [H1 H2].
    cbn [num_mul num_div_binary64]. rewrite H1, H2.
    split; eexists; reflexivity.
Qed.

(** What Champion returns once both thresholds are known. *)
Lemma Champion_binary64_unfold (w : World Player) (t1 t2 : number) :
  len (history (self w)) <> 0 ->
  fst (num_div_binary64 (match_length (self w)) 20 w) = Ok t1 ->
  fst (num_div_binary64 (num_mul (match_length (self w)) 5) 40 w) = Ok t2 ->
  Champion_strategy_binary64 w =
    if int_lt (len (history (self w))) t1 then (Ok C, w)
    else if int_lt (len (history (self w))) t2
    then getitem (history (opponent w)) (-1) w
    else
      (defection_prop <-
         true_div_binary64 (defections (opponent w))
                           (len (history (opponent w))) ;;
       last <- getitem (history (opponent w)) (-1) ;;
       if Action_eqb last D then
         r <- random ;;
         if Qle_bool (py_max literal_0_4 r) defection_prop
         then ret D else ret C
       else ret C) w.
Proof.
  intros H0 H1 H2. unfold Champion_strategy_binary64.
  unfold bind at 1. unfold gets at 1. unfold bind at 1. unfold gets at 1.
  apply Z.eqb_neq in H0. rewrite H0.
  unfold bind at 1. rewrite num_div_binary64_state, H1.
  destruct (int_lt _ t1); [reflexivity|].
  unfold bind at 1. unfold gets at 1.
  unfold bind at 1. rewrite num_div_binary64_state, H2.
  destruct (int_lt _ t2); reflexivity.
Qed.

Lemma Champion_binary64_no_ZeroDivisionError (w : World Player) :
  length (history (self w)) = length (history (opponent w)) ->
  fst (Champion_strategy_binary64 w) <> Raise ZeroDivisionError.
Proof.
  intro Hlen.
  destruct (Z.eq_dec (len (history (self w))) 0) as [E0|N0].
  { unfold Champion_strategy_binary64. run.
    apply Z.eqb_eq in E0. rewrite E0. discriminate. }
  assert (Hown : history (self w) <> []) by (now rewrite <- len_zero_iff).
  pose proof (len_eq_nonempty _ _ Hlen Hown) as Hopp.
  assert (Nopp : len (history (opponent w)) <> 0)
    by (now rewrite len_zero_iff).
  destruct (py_index_last_some _ Hopp) as [a Ha].
  destruct (fst (num_div_binary64 (match_length (self w)) 20 w))
    as [t1|e] eqn:E1.
  2:{ unfold Champion_strategy_binary64. run.
      apply Z.eqb_neq in N0. rewrite N0. run.
      rewrite num_div_binary64_state, E1. cbn [fst].
      rewrite (num_div_binary64_error _ _ _ _ E1). discriminate. }
  destruct (fst (num_div_binary64 (num_mul (match_length (self w)) 5) 40 w))
    as [t2|e] eqn:E2.
  2:{ unfold Champion_strategy_binary64. run.
      apply Z.eqb_neq in N0. rewrite N0. run.
      rewrite num_div_binary64_state, E1. run.
      destruct (int_lt _ t1); [discriminate|]. run.
      rewrite num_div_binary64_state, E2. cbn [fst].
      rewrite (num_div_binary64_error _ _ _ _ E2). discriminate. }
  rewrite (Champion_binary64_unfold w t1 t2 N0 E1 E2).
  destruct (int_lt _ t1); [discriminate|].
  destruct (int_lt _ t2); run; rewrite ?Ha; [discriminate|].
  rewrite true_div_binary64_state.
  destruct (fst (true_div_binary64 _ _ w)) as [x|e] eqn:Ed; run.
  - destruct (Action_eqb a D); run; [|discriminate].
    destruct (Qle_bool _ _); discriminate.
  - rewrite (true_div_binary64_error _ _ _ _ Nopp Ed). discriminate.
Qed.

Lemma Champion_binary64_returns (w : World Player) :
  length (history (self w)) = length (history (opponent w)) ->
  0 <= defections (opponent w) <= len (history (opponent w)) ->
  representable_length (match_length (self w)) ->
  exists a, fst (Champion_strategy_binary64 w) = Ok a.
Proof.
  intros Hlen Hd Hrep.
  destruct (Z.eq_dec (len (history (self w))) 0) as [E0|N0].
  { unfold Champion_strategy_binary64. run.
    apply Z.eqb_eq in E0. rewrite E0. now exists C. }
  assert (Hown : history (self w) <> []) by (now rewrite <- len_zero_iff).
  pose proof (len_eq_nonempty _ _ Hlen Hown) as Hopp.
  assert (Nopp : len (history (opponent w)) <> 0)
    by (now rewrite len_zero_iff).
  destruct (py_index_last_some _ Hopp) as [a Ha].
  destruct (thresholds_return _ w Hrep) as [[t1 E1] [t2 E2]].
  rewrite (Champion_binary64_unfold w t1 t2 N0 E1 E2).
  destruct (int_lt _ t1); [now exists C|].
  destruct (int_lt _ t2); run; rewrite ?Ha; [now exists a|].
  rewrite true_div_binary64_state, (true_div_binary64_ratio _ _ w Hd Nopp).
  run. destruct (Action_eqb a D); run; [|now exists C].
  destruct (Qle_bool _ _); [now exists D|now exists C].
Qed.

Lemma Eatherley_binary64_no_ZeroDivisionError (w : World Player) :
  fst (Eatherley_strategy_binary64 w) <> Raise ZeroDivisionError.
Proof.
  unfold Eatherley_strategy_binary64. run.
  destruct (Z.eqb_spec (len (history (opponent w))) 0) as [E|N];
    [discriminate|]. run.
  destruct (py_index _ _) as [a|]; run; [|discriminate].
  destruct (Action_eqb a C); run; [discriminate|].
  rewrite true_div_binary64_state.
  destruct (fst (true_div_binary64 _ _ w)) as [x|e] eqn:Ed; run.
  - destruct (Qlt_bool _ _); discriminate.
  - rewrite (true_div_binary64_error _ _ _ _ N Ed). discriminate.
Qed.

Lemma Eatherley_binary64_returns (w : World Player) :
  0 <= defections (opponent w) <= len (history (opponent w)) ->
  exists a, fst (Eatherley_strategy_binary64 w) = Ok a.
Proof.
  intro Hd. unfold Eatherley_strategy_binary64. run.
  destruct (Z.eqb_spec (len (history (opponent w))) 0) as [E|N];
    [now exists C|]. run.
  assert (Hne : history (opponent w) <> [])
    by (now rewrite <- len_zero_iff).
  destruct (py_index_last_some _ Hne) as [a Ha]. rewrite Ha. run.
  destruct (Action_eqb a C); run; [now exists C|].
  rewrite true_div_binary64_state, (true_div_binary64_ratio _ _ w Hd N).
  run. destruct (Qlt_bool _ _); [now exists C|now exists D].
Qed.

Lemma Gladstein_binary64_no_ZeroDivisionError (w : World Gladstein) :
  fst (Gladstein_strategy_binary64 w) <> Raise ZeroDivisionError.
Proof.
  unfold Gladstein_strategy_binary64. run.
  destruct (history (Gladstein_player (self w))) as [|x t] eqn:Eh;
    [discriminate|]. run.
  destruct (patsy (self w)); run;
    destruct (py_index _ _) as [a|]; run; try discriminate.
  destruct (Action_eqb a D); run; [discriminate|].
  assert (N : len (x :: t) <> 0) by (rewrite len_zero_iff; discriminate).
  rewrite true_div_binary64_state.
  destruct (fst (true_div_binary64 _ _ w)) as [y|e] eqn:Ed; run.
  - destruct (Qlt_bool _ _); discriminate.
  - rewrite (true_div_binary64_error _ _ _ _ N Ed). discriminate.
Qed.

Lemma Gladstein_binary64_returns (w : World Gladstein) :
  length (history (Gladstein_player (self w)))
    = length (history (opponent w)) ->
  0 <= cooperations (Gladstein_player (self w))
    <= len (history (Gladstein_player (self w))) ->
  exists a, fst (Gladstein_strategy_binary64 w) = Ok a.
Proof.
  intros Hlen Hc. unfold Gladstein_strategy_binary64. run.
  destruct (history (Gladstein_player (self w))) as [|x t] eqn:Eh;
    [now exists D|]. run.
  assert (Hopp : history (opponent w) <> []).
  { apply (len_eq_nonempty (x :: t)); [exact Hlen|discriminate]. }
  destruct (py_index_last_some _ Hopp) as [a Ha].
  destruct (patsy (self w)); run; rewrite Ha; run; [|now exists a].
  destruct (Action_eqb a D); run; [now exists C|].
  assert (N : len (x :: t) <> 0) by (rewrite len_zero_iff; discriminate).
  rewrite true_div_binary64_state, (true_div_binary64_ratio _ _ w Hc N).
  run. destruct (Qlt_bool _ _); [now exists D|now exists C].
Qed.

(** C8, as stated, fails.  Both histories hold one round and the match
    length is the integer 10^400: the call of Champion raises
    [OverflowError] at [expected_length / 20], so it does not return a
    move.  So does the call of Eatherley, at the division, when the
    histories hold one round and the opponent's defection counter is
    10^400. *)
Lemma ratio_divisions_overflow_counterexample :
  length (history (mkPlayer [C] 1 0 (Num (inject_Z (10 ^ 400)))))
    = length (history (mkPlayer [C] 1 0 (Num (inject_Z (10 ^ 400))))) /\
  fst (Champion_strategy_binary64
         (mkWorld (mkPlayer [C] 1 0 (Num (inject_Z (10 ^ 400))))
                  (mkPlayer [C] 1 0 (Num (inject_Z (10 ^ 400))))
                  (fun _ => 0%Q) 0))
    = Raise OverflowError /\
  fst (Eatherley_strategy_binary64
         (mkWorld (mkPlayer [C] 1 0 (Num 200))
                  (mkPlayer [D] 0 (10 ^ 400) (Num 200))
                  (fun _ => 0%Q) 0))
    = Raise OverflowError.
Proof. repeat split; vm_compute; reflexivity. Qed.

(** C8, amended.  When both histories have the same length, every
    division that computes a ratio in Champion, Eatherley and Gladstein
    has a history length of at least 1 as divisor: no call raises
    [ZeroDivisionError], whatever the counters and the match length.
    When moreover the counters lie between 0 and the history length, as
    the engine keeps them, and the match length is [float('inf')] or an
    integer of magnitude at most 2^1024, every call returns a move. *)
Theorem ratio_divisions_are_safe_binary64 (own opp : Player)
  (src : nat -> Q) (n : nat) (flag : bool) :
  length (history own) = length (history opp) ->
  (fst (Champion_strategy_binary64 (mkWorld own opp src n))
     <> Raise ZeroDivisionError /\
   fst (Eatherley_strategy_binary64 (mkWorld own opp src n))
     <> Raise ZeroDivisionError /\
   fst (Gladstein_strategy_binary64
          (mkWorld (mkGladstein own flag) opp src n))
     <> Raise ZeroDivisionError) /\
  (0 <= defections opp <= len (history opp) ->
   0 <= cooperations own <= len (history own) ->
   representable_length (match_length own) ->
   (exists a, fst (Champion_strategy_binary64 (mkWorld own opp src n))
              = Ok a) /\
   (exists a, fst (Eatherley_strategy_binary64 (mkWorld own opp src n))
              = Ok a) /\
   (exists a, fst (Gladstein_strategy_binary64
                     (mkWorld (mkGladstein own flag) opp src n)) = Ok a)).
Proof.
  intro Hlen. split; [split; [|split]|].
  - now apply Champion_binary64_no_ZeroDivisionError.
  - apply Eatherley_binary64_no_ZeroDivisionError.
  - apply Gladstein_binary64_no_ZeroDivisionError.
  - intros Hd Hc Hrep. split; [|split].
    + now apply Champion_binary64_returns.
    + now apply Eatherley_binary64_returns.
    + now apply Gladstein_binary64_returns.
Qed.

Lemma ratio_divisions_are_safe_binary64_witness :
  exists a,
    fst (Champion_strategy_binary64
           (mkWorld (mkPlayer [C; C; C] 3 0 (Num (inject_Z 8)))
                    (mkPlayer [C; D; D] 1 2 (Num (inject_Z 8)))
                    (fun _ => 0%Q) 0)) = Ok a.
Proof.
  refine (proj1 (proj2 (ratio_divisions_are_safe_binary64
    (mkPlayer [C; C; C] 3 0 (Num (inject_Z 8)))
    (mkPlayer [C; D; D] 1 2 (Num (inject_Z 8)))
    (fun _ => 0%Q) 0 true _) _ _ _)).
  - reflexivity.
  - vm_compute. split; discriminate.
  - vm_compute. split; discriminate.
  - right. exists 8. split; [reflexivity|]. vm_compute. discriminate.
Defined.

(** The rounds of a match in which both players have only cooperated. *)
Lemma Champion_binary64_cooperator_step (l : number) (k : nat)
  (w : World Player) :
  representable_length l ->
  (history (self w) = repeat C k /\ history (opponent w) = repeat C k) /\
  defections (opponent w) = 0 /\ match_length (self w) = l ->
  Champion_strategy_binary64 w = (Ok C, w).
Proof.
  intros Hrep ((Hown & Hopp) & Hd & Hl).
  destruct k as [|k].
  { unfold Champion_strategy_binary64. run. now rewrite Hown. }
  assert (N0 : len (history (self w)) <> 0).
  { rewrite len_zero_iff, Hown. discriminate. }
  rewrite <- Hl in Hrep.
  destruct (thresholds_return _ w Hrep) as [[t1 E1] [t2 E2]].
  rewrite (Champion_binary64_unfold w t1 t2 N0 E1 E2).
  destruct (int_lt _ t1); [reflexivity|].
  assert (Ha : py_index (history (opponent w)) (-1) = Some C)
    by (rewrite Hopp; apply py_index_last_repeat).
  destruct (int_lt _ t2); run; rewrite Ha; [reflexivity|].
  assert (Nopp : len (history (opponent w)) <> 0).
  { rewrite len_zero_iff, Hopp. discriminate. }
  pose proof (len_nonneg (history (opponent w))) as Hn.
  rewrite true_div_binary64_state, true_div_binary64_ratio by lia.
  reflexivity.
Qed.

Lemma Champion_binary64_cooperator_next (l : number) (k : nat)
  (w : World Player) :
  (history (self w) = repeat C k /\ history (opponent w) = repeat C k) /\
  defections (opponent w) = 0 /\ match_length (self w) = l ->
  (history (self (engine_round C C w)) = repeat C (S k) /\
   history (opponent (engine_round C C w)) = repeat C (S k)) /\
  defections (opponent (engine_round C C w)) = 0 /\
  match_length (self (engine_round C C w)) = l.
Proof.
  intros (Hh & Hd & Hl). split; [now apply both_cooperated_next|].
  split; [cbn; now rewrite Hd|exact Hl].
Qed.

(** X10. Champion against an opponent who always cooperates, from the
    start of a match whose length attribute is [float('inf')] or an
    integer of magnitude at most 2^1024: it cooperates in every round,
    never draws from the random source, and no division overflows. *)
Theorem Champion_against_cooperator_binary64 (n : nat) (l1 l2 : number)
  (src : nat -> Q) (k : nat) :
  representable_length l1 ->
  fst (play Champion_strategy_binary64 (repeat C n)
         (mkWorld (fresh_player l1) (fresh_player l2) src k))
    = Ok (repeat C n) /\
  random_drawn (snd (play Champion_strategy_binary64 (repeat C n)
         (mkWorld (fresh_player l1) (fresh_player l2) src k))) = k.
Proof.
  intro Hrep.
  destruct (play_invariant Champion_strategy_binary64
              (fun j w =>
                 (history (self w) = repeat C j /\
                  history (opponent w) = repeat C j) /\
                 defections (opponent w) = 0 /\ match_length (self w) = l1)
              (fun _ => C) (fun _ => C)
              (fun j w => Champion_binary64_cooperator_step l1 j w Hrep)
              (Champion_binary64_cooperator_next l1)
              n 0%nat (mkWorld (fresh_player l1) (fresh_player l2) src k)
              (conj (conj eq_refl eq_refl) (conj eq_refl eq_refl)))
    as (w' & E & _ & Hr).
  rewrite !map_const_seq in E. rewrite E. split; [reflexivity|exact Hr].
Qed.

Lemma Champion_against_cooperator_binary64_witness :
  fst (play Champion_strategy_binary64 (repeat C 30)
         (mkWorld (fresh_player (Num (inject_Z 200)))
                  (fresh_player (Num (inject_Z 200))) (fun _ => 0%Q) 0))
    = Ok (repeat C 30).
Proof.
  refine (proj1 (Champion_against_cooperator_binary64 30
    (Num (inject_Z 200)) (Num (inject_Z 200)) (fun _ => 0%Q) 0 _)).
  right. exists 200. split; [reflexivity|]. vm_compute. discriminate.
Defined.

(** X12. Eatherley returns a move in every state in which the
    opponent's defection counter lies between 0 and the length of its
    history, as the engine keeps it: its guards cover the read of the
    opponent's last move and the division by zero, and the ratio cannot
    overflow.  Nothing is assumed about its own history. *)
Theorem Eatherley_always_returns_binary64 (w : World Player) :
  0 <= defections (opponent w) <= len (history (opponent w)) ->
  exists a, fst (Eatherley_strategy_binary64 w) = Ok a.
Proof. apply Eatherley_binary64_returns. Qed.

Lemma Eatherley_always_returns_binary64_witness :
  exists a,
    fst (Eatherley_strategy_binary64
           (mkWorld (mkPlayer [] 0 0 (Num 200))
                    (mkPlayer [C; D; D] 1 2 (Num 200))
                    (fun _ => (1 # 2)%Q) 0)) = Ok a.
Proof.
  refine (Eatherley_always_returns_binary64
    (mkWorld (mkPlayer [] 0 0 (Num 200))
             (mkPlayer [C; D; D] 1 2 (Num 200)) (fun _ => (1 # 2)%Q) 0) _).
  vm_compute. split; discriminate.
Defined.
